(** * A shallow embedding of the resizable FIFO ring buffer of package fifo
    (src/queue.go, second version of the file, lines 168-366).

    Go [int] fields are modelled as [Z]; the backing slice [items] is a
    [list T] whose length is [cap(q.items)]; [make([]T, n)] is a list of
    [n] zero values.  Every operation runs under the queue's single mutex,
    so each call is one atomic step on the state record.  A call either
    returns (new state and result), suspends on the condition variable
    (its wait-loop guard holds), or panics (index out of range, slicing out
    of range, integer division by zero). *)

From Stdlib Require Import ZArith List Bool Lia.
Import ListNotations.
Open Scope Z_scope.

Section Fifo.

Context {T : Type}.
(** The Go zero value of the element type ([var zero T]). *)
Variable zero : T.

(** ** Go slices *)

(** [len(s)] (equal to [cap(s)] for every slice the queue allocates). *)
Definition slen (s : list T) : Z := Z.of_nat (length s).

Fixpoint set_nth (s : list T) (n : nat) (x : T) : list T :=
  match s, n with
  | [], _ => []
  | _ :: s', O => x :: s'
  | y :: s', S n' => y :: set_nth s' n' x
  end.

(** [s[i]], panicking ([None]) out of range. *)
Definition slice_get (s : list T) (i : Z) : option T :=
  if (0 <=? i) && (i <? slen s) then nth_error s (Z.to_nat i) else None.

(** [s[i] = x], panicking ([None]) out of range. *)
Definition slice_set (s : list T) (i : Z) (x : T) : option (list T) :=
  if (0 <=? i) && (i <? slen s) then Some (set_nth s (Z.to_nat i) x) else None.

(** [s[lo:hi]], panicking unless [0 <= lo <= hi <= cap(s)]. *)
Definition slice_range (s : list T) (lo hi : Z) : option (list T) :=
  if (0 <=? lo) && (lo <=? hi) && (hi <=? slen s)
  then Some (firstn (Z.to_nat (hi - lo)) (skipn (Z.to_nat lo) s))
  else None.

(** [copy(dst, src)]: the number of elements copied and the new contents
    of [dst]. *)
Definition go_copy (dst src : list T) : nat * list T :=
  let k := Nat.min (length dst) (length src) in
  (k, firstn k src ++ skipn k dst).

(** [a % b] on Go ints: truncated remainder, panicking when [b = 0]. *)
Definition go_rem (a b : Z) : option Z :=
  if b =? 0 then None else Some (Z.rem a b).

(** [make([]T, n)], panicking when [n < 0]. *)
Definition go_make (n : Z) : option (list T) :=
  if n <? 0 then None else Some (repeat zero (Z.to_nat n)).

(** ** The queue *)

Inductive error : Type :=
| ErrQueueFull
| ErrQueueEmpty
| ErrCapacityNotPositive
| ErrQueueClosed.

Record Queue : Type := mkQueue {
  items : list T;
  head : Z;
  tail : Z;
  len : Z;
  cap : Z;
  closed : bool
}.

(** Outcome of one call: it returns, suspends in its wait loop, or panics. *)
Inductive outcome (R : Type) : Type :=
| Ret (q : Queue) (r : R)
| Blocks
| Panics.
Arguments Ret {R} q r.
Arguments Blocks {R}.
Arguments Panics {R}.

(** [New]: [None] is the panic on a non-positive capacity. *)
Definition New (initialCapacity : Z) : option Queue :=
  if initialCapacity <=? 0 then None
  else match go_make initialCapacity with
       | Some its => Some (mkQueue its 0 0 0 initialCapacity false)
       | None => None
       end.

Definition Len (q : Queue) : Z := len q.
Definition Cap (q : Queue) : Z := cap q.

(** The shared body of [TryEnqueue] and [Enqueue] after their checks:
    [q.items[q.tail] = item; q.tail = (q.tail + 1) % cap(q.items); q.len++]. *)
Definition enqueue_body (q : Queue) (item : T) : outcome (option error) :=
  match slice_set (items q) (tail q) item with
  | None => Panics
  | Some its =>
      match go_rem (tail q + 1) (slen its) with
      | None => Panics
      | Some t =>
          Ret (mkQueue its (head q) t (len q + 1) (cap q) (closed q)) None
      end
  end.

Definition TryEnqueue (q : Queue) (item : T) : outcome (option error) :=
  if closed q then Ret q (Some ErrQueueClosed)
  else if cap q <=? len q then Ret q (Some ErrQueueFull)
  else enqueue_body q item.

(** [Enqueue]: [for q.len >= q.cap && !q.closed { q.cond.Wait() }].  With no
    other goroutine acting the wait never ends; when another one does act,
    the loop re-runs on the state it leaves, i.e. [Enqueue] is called again
    on that state. *)
Definition Enqueue (q : Queue) (item : T) : outcome (option error) :=
  if (cap q <=? len q) && negb (closed q) then Blocks
  else if closed q then Ret q (Some ErrQueueClosed)
  else enqueue_body q item.

(** The shared body of [TryDequeue] and [Dequeue] once [q.len > 0]. *)
Definition dequeue_body (q : Queue) : outcome (T * option error) :=
  match slice_get (items q) (head q) with
  | None => Panics
  | Some item =>
      match slice_set (items q) (head q) zero with
      | None => Panics
      | Some its =>
          match go_rem (head q + 1) (slen its) with
          | None => Panics
          | Some h =>
              Ret (mkQueue its h (tail q) (len q - 1) (cap q) (closed q))
                  (item, None)
          end
      end
  end.

Definition TryDequeue (q : Queue) : outcome (T * option error) :=
  if len q =? 0 then
    if closed q then Ret q (zero, Some ErrQueueClosed)
    else Ret q (zero, Some ErrQueueEmpty)
  else dequeue_body q.

(** [Dequeue]: [for q.len == 0 { if q.closed { return } q.cond.Wait() }]. *)
Definition Dequeue (q : Queue) : outcome (T * option error) :=
  if len q =? 0 then
    if closed q then Ret q (zero, Some ErrQueueClosed) else Blocks
  else dequeue_body q.

(** The copy step of [Resize] into the fresh slice [newItems]. *)
Definition resize_copy (q : Queue) (newItems : list T) : option (list T) :=
  if 0 <? len q then
    if head q <? tail q then
      match slice_range (items q) (head q) (tail q) with
      | None => None
      | Some src => Some (snd (go_copy newItems src))
      end
    else
      match slice_range (items q) (head q) (slen (items q)) with
      | None => None
      | Some src1 =>
          let (n, newItems1) := go_copy newItems src1 in
          match slice_range (items q) 0 (tail q) with
          | None => None
          | Some src2 =>
              (* [newItems[n:]] aliases the backing array of [newItems] *)
              match slice_range newItems1 (Z.of_nat n) (slen newItems1) with
              | None => None
              | Some dst =>
                  Some (firstn n newItems1 ++ snd (go_copy dst src2))
              end
          end
      end
  else Some newItems.

Definition Resize (q : Queue) (newCap : Z) : outcome (option error) :=
  if newCap =? cap q then Ret q None
  else if newCap <=? 0 then Ret q (Some ErrCapacityNotPositive)
  else if closed q then Ret q (Some ErrQueueClosed)
  else
    let ns := if len q >? newCap then len q else newCap in
    match go_make ns with
    | None => Panics
    | Some newItems =>
        match resize_copy q newItems with
        | None => Panics
        | Some its =>
            match go_rem (len q) ns with
            | None => Panics
            | Some t => Ret (mkQueue its 0 t (len q) newCap (closed q)) None
            end
        end
    end.

Definition Close (q : Queue) : outcome (option error) :=
  if closed q then Ret q (Some ErrQueueClosed)
  else Ret (mkQueue (items q) (head q) (tail q) (len q) (cap q) true) None.

(** ** Abstraction and invariant *)

(** The items stored in [q], front first: slot [(head + i) % cap(items)]
    for [i < len]. *)
Definition contents (q : Queue) : list T :=
  map (fun i => nth (Z.to_nat ((head q + Z.of_nat i) mod slen (items q)))
                    (items q) zero)
      (seq 0 (Z.to_nat (len q))).

(** The ring-buffer invariant over the backing slice of length [N]. *)
Definition inv (q : Queue) : Prop :=
  let N := slen (items q) in
  1 <= N /\ 0 <= len q <= N /\ 0 <= head q < N /\ 0 <= tail q < N /\
  tail q = (head q + len q) mod N /\ 1 <= cap q <= N.

(** ** Calls and reachable states *)

Inductive op : Type :=
| OpTryEnqueue (x : T)
| OpEnqueue (x : T)
| OpTryDequeue
| OpDequeue
| OpResize (newCap : Z)
| OpClose
| OpLen
| OpCap.

Definition ret_state {R : Type} (o : outcome R) : option Queue :=
  match o with
  | Ret q _ => Some q
  | _ => None
  end.

(** The state after a call that returns (with or without an error). *)
Definition post (q : Queue) (o : op) : option Queue :=
  match o with
  | OpTryEnqueue x => ret_state (TryEnqueue q x)
  | OpEnqueue x => ret_state (Enqueue q x)
  | OpTryDequeue => ret_state (TryDequeue q)
  | OpDequeue => ret_state (Dequeue q)
  | OpResize n => ret_state (Resize q n)
  | OpClose => ret_state (Close q)
  | OpLen => Some q
  | OpCap => Some q
  end.

Inductive reachable : Queue -> Prop :=
| reach_new (c : Z) (q : Queue) :
    New c = Some q -> reachable q
| reach_step (q : Queue) (o : op) (q' : Queue) :
    reachable q -> post q o = Some q' -> reachable q'.

(** Successive enqueues; [true] selects the blocking [Enqueue], [false]
    [TryEnqueue].  [Some] the final state when every call returns [nil]. *)
Fixpoint enqueue_seq (q : Queue) (xs : list (bool * T)) : option Queue :=
  match xs with
  | [] => Some q
  | (b, x) :: xs' =>
      match (if b then Enqueue q x else TryEnqueue q x) with
      | Ret q' None => enqueue_seq q' xs'
      | _ => None
      end
  end.

(** Successive dequeues ([true]: [Dequeue], [false]: [TryDequeue]); [Some]
    the final state and the items, in order, when every call returns [nil]. *)
Fixpoint dequeue_seq (q : Queue) (bs : list bool) : option (Queue * list T) :=
  match bs with
  | [] => Some (q, [])
  | b :: bs' =>
      match (if b then Dequeue q else TryDequeue q) with
      | Ret q' (x, None) =>
          match dequeue_seq q' bs' with
          | Some (q'', xs) => Some (q'', x :: xs)
          | None => None
          end
      | _ => None
      end
  end.

(** A sequence of calls, each of which must return. *)
Fixpoint run_ops (q : Queue) (os : list op) : option Queue :=
  match os with
  | [] => Some q
  | o :: os' =>
      match post q o with
      | Some q' => run_ops q' os'
      | None => None
      end
  end.

(** Every slot outside the occupied range [[head, head + len)] (taken round
    the ring) holds the zero value: dequeued slots are cleared
    ([q.items[q.head] = zero]) and fresh slices are zero-filled. *)
Definition free_slots_zero (q : Queue) : Prop :=
  forall i : nat, (i < length (items q))%nat ->
    len q <= (Z.of_nat i - head q) mod slen (items q) ->
    nth i (items q) zero = zero.

End Fifo.

Arguments Ret {T R} q r.
Arguments Blocks {T R}.
Arguments Panics {T R}.

(** ** The first version of the queue (src/queue.go, lines 1-166)

    No [closed] flag; [Enqueue]/[Dequeue] are the non-blocking calls,
    [BlockingEnqueue]/[BlockingDequeue] wait; cursors advance modulo the field
    [q.cap]; [Resize] rejects a capacity below the occupancy and sets
    [q.tail = q.len].  The mutexes only serialise the calls. *)
Module V1.

Section V1Defs.

Context {T : Type}.
Variable zero : T.

Inductive error : Type :=
| ErrQueueFull
| ErrQueueEmpty
| ErrNewCapacityTooSmall.

Record Queue : Type := mkQueueV1 {
  items : list T;
  head : Z;
  tail : Z;
  len : Z;
  cap : Z
}.

Inductive outcome (R : Type) : Type :=
| Ret (q : Queue) (r : R)
| Blocks
| Panics.
Arguments Ret {R} q r.
Arguments Blocks {R}.
Arguments Panics {R}.

(** [New]: [make([]T, initialCapacity)] panics ([None]) when negative. *)
Definition New (initialCapacity : Z) : option Queue :=
  match go_make zero initialCapacity with
  | Some its => Some (mkQueueV1 its 0 0 0 initialCapacity)
  | None => None
  end.

Definition Len (q : Queue) : Z := len q.
Definition Cap (q : Queue) : Z := cap q.

(** [q.items[q.tail] = item; q.tail = (q.tail + 1) % q.cap; q.len++];
    [None] is a panic. *)
Definition enqueue_body (q : Queue) (item : T) : option Queue :=
  match slice_set (items q) (tail q) item with
  | None => None
  | Some its =>
      match go_rem (tail q + 1) (cap q) with
      | None => None
      | Some t => Some (mkQueueV1 its (head q) t (len q + 1) (cap q))
      end
  end.

Definition Enqueue (q : Queue) (item : T) : outcome (option error) :=
  if len q =? cap q then Ret q (Some ErrQueueFull)
  else match enqueue_body q item with
       | Some q' => Ret q' None
       | None => Panics
       end.

Definition BlockingEnqueue (q : Queue) (item : T) : outcome unit :=
  if len q =? cap q then Blocks
  else match enqueue_body q item with
       | Some q' => Ret q' tt
       | None => Panics
       end.

(** [item := q.items[q.head]; q.items[q.head] = zero;
    q.head = (q.head + 1) % q.cap; q.len--]; [None] is a panic. *)
Definition dequeue_body (q : Queue) : option (Queue * T) :=
  match slice_get (items q) (head q) with
  | None => None
  | Some item =>
      match slice_set (items q) (head q) zero with
      | None => None
      | Some its =>
          match go_rem (head q + 1) (cap q) with
          | None => None
          | Some h => Some (mkQueueV1 its h (tail q) (len q - 1) (cap q), item)
          end
      end
  end.

Definition Dequeue (q : Queue) : outcome (T * option error) :=
  if len q =? 0 then Ret q (zero, Some ErrQueueEmpty)
  else match dequeue_body q with
       | Some (q', item) => Ret q' (item, None)
       | None => Panics
       end.

Definition BlockingDequeue (q : Queue) : outcome T :=
  if len q =? 0 then Blocks
  else match dequeue_body q with
       | Some (q', item) => Ret q' item
       | None => Panics
       end.

(** The copy step of [Resize] (lines 150-157). *)
Definition resize_copy (q : Queue) (newItems : list T) : option (list T) :=
  if 0 <? len q then
    if tail q >? head q then
      match slice_range (items q) (head q) (tail q) with
      | None => None
      | Some src => Some (snd (go_copy newItems src))
      end
    else
      match slice_range (items q) (head q) (slen (items q)) with
      | None => None
      | Some src1 =>
          let (n, newItems1) := go_copy newItems src1 in
          match slice_range (items q) 0 (tail q) with
          | None => None
          | Some src2 =>
              match slice_range newItems1 (Z.of_nat n) (slen newItems1) with
              | None => None
              | Some dst =>
                  Some (firstn n newItems1 ++ snd (go_copy dst src2))
              end
          end
      end
  else Some newItems.

Definition Resize (q : Queue) (newCap : Z) : outcome (option error) :=
  if newCap =? cap q then Ret q None
  else if newCap <? len q then Ret q (Some ErrNewCapacityTooSmall)
  else
    match go_make zero newCap with
    | None => Panics
    | Some newItems =>
        match resize_copy q newItems with
        | None => Panics
        | Some its => Ret (mkQueueV1 its 0 (len q) (len q) newCap) None
        end
    end.

End V1Defs.

Arguments Ret {T R} q r.
Arguments Blocks {T R}.
Arguments Panics {T R}.

End V1.

(** The fields of a first-version queue read as an open queue of the later
    version. *)
Definition as_later {T : Type} (q : @V1.Queue T) : @Queue T :=
  mkQueue (V1.items q) (V1.head q) (V1.tail q) (V1.len q) (V1.cap q) false.

(** A first-version queue laid out as a ring over its whole backing slice:
    [q.cap] is [len(q.items)], the state [New] builds for a positive
    capacity. *)
Definition ring_state {T : Type} (q : @V1.Queue T) : Prop :=
  inv (as_later q) /\ V1.cap q = slen (V1.items q).

(** * Proofs *)

Section Proofs.

Context {T : Type}.
Variable zero : T.

(** ** Slices *)

Lemma length_set_nth (s : list T) (n : nat) (x : T) :
  length (set_nth s n x) = length s.
Proof.
  revert n; induction s as [|y s IH]; intros [|n]; simpl; auto.
Qed.

Lemma nth_set_nth_eq (s : list T) (n : nat) (x d : T) :
  (n < length s)%nat -> nth n (set_nth s n x) d = x.
Proof.
  revert n; induction s as [|y s IH]; intros [|n] Hn; simpl in *; try lia; auto.
  apply IH; lia.
Qed.

Lemma nth_set_nth_ne (s : list T) (m n : nat) (x d : T) :
  m <> n -> nth m (set_nth s n x) d = nth m s d.
Proof.
  revert m n; induction s as [|y s IH]; intros [|m] [|n] Hmn; simpl; auto;
    try congruence.
Qed.

Lemma slen_set_nth (s : list T) (n : nat) (x : T) :
  slen (set_nth s n x) = slen s.
Proof. unfold slen; now rewrite length_set_nth. Qed.

Lemma slice_set_ok (s : list T) (i : Z) (x : T) :
  0 <= i < slen s -> slice_set s i x = Some (set_nth s (Z.to_nat i) x).
Proof.
  intros Hi; unfold slice_set.
  replace ((0 <=? i) && (i <? slen s)) with true; [reflexivity|].
  symmetry; apply andb_true_intro; split; [apply Z.leb_le | apply Z.ltb_lt]; lia.
Qed.

Lemma slice_get_ok (s : list T) (i : Z) :
  0 <= i < slen s -> slice_get s i = Some (nth (Z.to_nat i) s zero).
Proof.
  intros Hi; unfold slice_get.
  replace ((0 <=? i) && (i <? slen s)) with true.
  - apply nth_error_nth'. unfold slen in Hi; lia.
  - symmetry; apply andb_true_intro; split; [apply Z.leb_le | apply Z.ltb_lt]; lia.
Qed.

Lemma slice_range_ok (s : list T) (lo hi : Z) :
  0 <= lo <= hi -> hi <= slen s ->
  slice_range s lo hi = Some (firstn (Z.to_nat (hi - lo)) (skipn (Z.to_nat lo) s)).
Proof.
  intros H1 H2; unfold slice_range.
  replace ((0 <=? lo) && (lo <=? hi) && (hi <=? slen s)) with true; [reflexivity|].
  symmetry; repeat (apply andb_true_intro; split); apply Z.leb_le; lia.
Qed.

Lemma go_rem_ok (a b : Z) :
  0 <= a -> 0 < b -> go_rem a b = Some (a mod b).
Proof.
  intros Ha Hb; unfold go_rem.
  replace (b =? 0) with false by (symmetry; apply Z.eqb_neq; lia).
  now rewrite Z.rem_mod_nonneg by lia.
Qed.

Lemma go_make_ok (n : Z) :
  0 <= n -> go_make zero n = Some (repeat zero (Z.to_nat n)).
Proof.
  intros Hn; unfold go_make.
  now replace (n <? 0) with false by (symmetry; apply Z.ltb_ge; lia).
Qed.

(** ** Ring arithmetic *)

Lemma wrap_cases (h i N : Z) :
  0 <= h < N -> 0 <= i <= N ->
  ((h + i) mod N = h + i /\ h + i < N) \/
  ((h + i) mod N = h + i - N /\ N <= h + i).
Proof.
  intros Hh Hi.
  destruct (Z_lt_le_dec (h + i) N) as [Hlt | Hge].
  - left; split; [apply Z.mod_small; lia | lia].
  - right; split; [|lia].
    replace (h + i) with ((h + i - N) + 1 * N) at 1 by lia.
    rewrite Z.mod_add by lia. apply Z.mod_small; lia.
Qed.

Lemma wrap_inj (h i j N : Z) :
  0 <= h < N -> 0 <= i < N -> 0 <= j < N ->
  (h + i) mod N = (h + j) mod N -> i = j.
Proof.
  intros Hh Hi Hj Heq.
  destruct (wrap_cases h i N) as [[E1 L1]|[E1 L1]]; try lia;
  destruct (wrap_cases h j N) as [[E2 L2]|[E2 L2]]; lia.
Qed.

Lemma mod_range (a N : Z) : 0 < N -> 0 <= a mod N < N.
Proof. intros; apply Z.mod_pos_bound; lia. Qed.

(** ** The abstraction *)

Lemma nth_map_seq (f : nat -> T) (n k : nat) (d : T) :
  (k < n)%nat -> nth k (map f (seq 0 n)) d = f k.
Proof.
  intros Hk.
  rewrite (nth_indep _ d (f O)) by (rewrite length_map, length_seq; exact Hk).
  rewrite map_nth, seq_nth by exact Hk. reflexivity.
Qed.

Lemma length_contents (q : Queue) :
  length (contents zero q) = Z.to_nat (len q).
Proof. unfold contents; now rewrite length_map, length_seq. Qed.

Lemma nth_contents (q : Queue) (k : nat) (d : T) :
  (k < Z.to_nat (len q))%nat ->
  nth k (contents zero q) d =
  nth (Z.to_nat ((head q + Z.of_nat k) mod slen (items q))) (items q) zero.
Proof.
  intros Hk; unfold contents. now rewrite nth_map_seq.
Qed.

Ltac inv_destruct H :=
  let HN := fresh "HN" in let Hl := fresh "Hl" in let Hh := fresh "Hh" in
  let Ht := fresh "Ht" in let Htl := fresh "Htl" in let Hc := fresh "Hc" in
  destruct H as (HN & Hl & Hh & Ht & Htl & Hc).

Lemma Z2Nat_mod_neq (a b N : Z) :
  0 < N -> a mod N <> b mod N -> Z.to_nat (a mod N) <> Z.to_nat (b mod N).
Proof.
  intros HN Hne E; apply Hne.
  pose proof (mod_range a N HN); pose proof (mod_range b N HN); lia.
Qed.

(** ** Enqueue *)

Lemma enqueue_body_ok (q : Queue) (x : T) :
  inv q -> len q < cap q ->
  exists q', enqueue_body q x = Ret q' None /\ inv q' /\
    contents zero q' = contents zero q ++ [x] /\
    len q' = len q + 1 /\ cap q' = cap q /\ closed q' = closed q.
Proof.
  intros Hinv Hlt. pose proof Hinv as Hinv'. inv_destruct Hinv'.
  set (N := slen (items q)) in *.
  unfold enqueue_body.
  rewrite slice_set_ok by lia.
  rewrite go_rem_ok by (rewrite ?slen_set_nth; lia).
  rewrite slen_set_nth; fold N.
  eexists; split; [reflexivity|].
  assert (Htl' : (tail q + 1) mod N = (head q + (len q + 1)) mod N).
  { rewrite Htl, Z.add_mod_idemp_l by lia. f_equal; lia. }
  repeat split; cbn [items head tail len cap closed];
    rewrite ?slen_set_nth; fold N; try lia;
    try (apply mod_range; lia); try exact Htl'.
  - apply nth_ext with (d := zero) (d' := zero).
    { rewrite length_app, !length_contents; cbn [len length]; lia. }
    intros k Hk. rewrite length_contents in Hk; cbn [len] in Hk.
    rewrite nth_contents by (cbn [len]; exact Hk).
    cbn [items head]; rewrite slen_set_nth; fold N.
    destruct (Nat.eq_dec k (Z.to_nat (len q))) as [->|Hne].
    + rewrite app_nth2 by (rewrite length_contents; lia).
      rewrite length_contents, Nat.sub_diag; cbn [nth].
      rewrite Z2Nat.id by lia. rewrite <- Htl.
      apply nth_set_nth_eq. unfold N, slen in *; lia.
    + rewrite app_nth1 by (rewrite length_contents; lia).
      rewrite nth_contents by lia.
      rewrite nth_set_nth_ne; [reflexivity|]. rewrite Htl.
      apply Z2Nat_mod_neq; [lia|].
      intros E. apply (wrap_inj (head q) (Z.of_nat k) (len q) N) in E; lia.
Qed.


(** ** Dequeue *)

Lemma dequeue_body_ok (q : Queue) :
  inv q -> 0 < len q ->
  exists q' x, dequeue_body zero q = Ret q' (x, None) /\ inv q' /\
    contents zero q = x :: contents zero q' /\
    len q' = len q - 1 /\ cap q' = cap q /\ closed q' = closed q.
Proof.
  intros Hinv Hpos. pose proof Hinv as Hinv'. inv_destruct Hinv'.
  set (N := slen (items q)) in *.
  unfold dequeue_body.
  rewrite slice_get_ok by lia. rewrite slice_set_ok by lia.
  rewrite go_rem_ok by (rewrite ?slen_set_nth; lia).
  rewrite slen_set_nth; fold N.
  do 2 eexists; split; [reflexivity|].
  assert (Htl' : tail q = ((head q + 1) mod N + (len q - 1)) mod N).
  { rewrite Htl, Z.add_mod_idemp_l by lia. f_equal; lia. }
  pose proof (mod_range (head q + 1) N ltac:(lia)).
  repeat split; cbn [items head tail len cap closed];
    rewrite ?slen_set_nth; fold N; try lia; try exact Htl'.
  apply nth_ext with (d := zero) (d' := zero).
  { cbn [length]; rewrite !length_contents; cbn [len]; lia. }
  intros [|k] Hk; rewrite length_contents in Hk.
  - rewrite nth_contents by lia. cbn [nth].
    rewrite Z.add_0_r, Z.mod_small by lia. reflexivity.
  - rewrite nth_contents by lia. cbn [nth].
    rewrite nth_contents by (cbn [len]; lia).
    cbn [items head]; rewrite slen_set_nth; fold N.
    rewrite Z.add_mod_idemp_l by lia.
    rewrite nth_set_nth_ne.
    + do 3 f_equal; lia.
    + intros E. rewrite <- (Z.mod_small (head q) N) in E at 2 by lia.
      apply Z2Nat.inj in E; try (apply mod_range; lia).
      replace (head q) with (head q + 0) in E at 2 by lia.
      rewrite <- Z.add_assoc in E.
      apply (wrap_inj (head q) (1 + Z.of_nat k) 0 N) in E; lia.
Qed.

(** ** Resize *)

Lemma skipn_repeat (k m : nat) (x : T) :
  skipn k (repeat x m) = repeat x (m - k).
Proof.
  revert m; induction k as [|k IH]; intros [|m]; simpl; auto.
Qed.

(** The stored items are the first [len] elements of the slice rotated to
    start at [head]. *)
Lemma contents_rotation (q : Queue) :
  inv q ->
  contents zero q =
  firstn (Z.to_nat (len q)) (skipn (Z.to_nat (head q)) (items q) ++ items q).
Proof.
  intros Hinv. inv_destruct Hinv.
  set (N := slen (items q)) in *.
  assert (HNn : N = Z.of_nat (length (items q))) by reflexivity.
  apply nth_ext with (d := zero) (d' := zero).
  { rewrite length_contents, length_firstn, length_app, length_skipn. lia. }
  intros k Hk. rewrite length_contents in Hk.
  rewrite nth_contents by exact Hk. fold N.
  rewrite nth_firstn.
  replace (k <? Z.to_nat (len q))%nat with true
    by (symmetry; apply Nat.ltb_lt; exact Hk).
  destruct (wrap_cases (head q) (Z.of_nat k) N) as [[E L]|[E L]]; try lia;
    rewrite E.
  - rewrite app_nth1 by (rewrite length_skipn; lia).
    rewrite nth_skipn. f_equal; lia.
  - rewrite app_nth2 by (rewrite length_skipn; lia).
    rewrite length_skipn. f_equal; lia.
Qed.

(** The copy step of [Resize] lays the stored items out in order from index
    0 of the fresh slice, wrapped or not. *)
Lemma resize_copy_ok (q : Queue) (ns : Z) :
  inv q -> len q <= ns ->
  resize_copy q (repeat zero (Z.to_nat ns)) =
  Some (contents zero q ++ repeat zero (Z.to_nat ns - Z.to_nat (len q))).
Proof.
  intros Hinv Hns. rewrite (contents_rotation q Hinv). inv_destruct Hinv.
  assert (HNn : slen (items q) = Z.of_nat (length (items q))) by reflexivity.
  unfold resize_copy.
  destruct (Z.ltb_spec 0 (len q)) as [Hpos|Hz].
  2: { replace (len q) with 0 by lia. cbn [Z.to_nat firstn app].
       now rewrite Nat.sub_0_r. }
  destruct (Z.ltb_spec (head q) (tail q)) as [Hlt|Hge].
  - (* the occupied range [head, tail) does not wrap *)
    destruct (wrap_cases (head q) (len q) (slen (items q))) as [[E L]|[E L]];
      try lia.
    rewrite slice_range_ok by lia.
    unfold go_copy; cbn [snd].
    replace (Z.to_nat (tail q - head q)) with (Z.to_nat (len q)) by lia.
    set (l := firstn (Z.to_nat (len q)) (skipn (Z.to_nat (head q)) (items q))).
    assert (Hl' : length l = Z.to_nat (len q))
      by (unfold l; rewrite length_firstn, length_skipn; lia).
    rewrite repeat_length, Hl'.
    replace (Nat.min (Z.to_nat ns) (Z.to_nat (len q))) with (Z.to_nat (len q))
      by lia.
    rewrite (firstn_all2 l) by lia. rewrite skipn_repeat.
    rewrite firstn_app, length_skipn.
    replace (Z.to_nat (len q) - (length (items q) - Z.to_nat (head q)))%nat with O by lia.
    rewrite firstn_O, app_nil_r. reflexivity.
  - (* the occupied range wraps: [head, end) then [0, tail) *)
    destruct (wrap_cases (head q) (len q) (slen (items q))) as [[E L]|[E L]];
      try lia.
    rewrite (slice_range_ok (items q) (head q) (slen (items q))) by lia.
    replace (Z.to_nat (slen (items q) - head q)) with (length (items q) - Z.to_nat (head q))%nat
      by lia.
    set (s1 := skipn (Z.to_nat (head q)) (items q)).
    assert (Hs1 : length s1 = (length (items q) - Z.to_nat (head q))%nat) by apply length_skipn.
    rewrite (firstn_all2 s1) by lia.
    unfold go_copy at 1. rewrite repeat_length, Hs1.
    replace (Nat.min (Z.to_nat ns) (length (items q) - Z.to_nat (head q)))
      with (length (items q) - Z.to_nat (head q))%nat by lia.
    cbv beta iota.
    rewrite (firstn_all2 s1) by lia. rewrite skipn_repeat.
    set (R := repeat zero (Z.to_nat ns - (length (items q) - Z.to_nat (head q)))).
    assert (HR : length R = (Z.to_nat ns - (length (items q) - Z.to_nat (head q)))%nat)
      by apply repeat_length.
    rewrite (slice_range_ok (items q) 0 (tail q)) by lia.
    rewrite Z.sub_0_r. cbn [Z.to_nat]. rewrite skipn_0.
    rewrite slice_range_ok by (unfold slen; rewrite length_app; lia).
    rewrite Nat2Z.id, skipn_app, Hs1, Nat.sub_diag, skipn_0.
    rewrite skipn_all2 by lia. cbn [app].
    rewrite (firstn_all2 R) by (unfold slen; rewrite length_app; lia).
    set (s2 := firstn (Z.to_nat (tail q)) (items q)).
    assert (Hs2 : length s2 = Z.to_nat (tail q))
      by (unfold s2; rewrite length_firstn; lia).
    unfold go_copy; cbn [snd]. rewrite HR, Hs2.
    replace (Nat.min (Z.to_nat ns - (length (items q) - Z.to_nat (head q))) (Z.to_nat (tail q)))
      with (Z.to_nat (tail q)) by lia.
    rewrite (firstn_all2 s2) by lia.
    rewrite firstn_app, Hs1, Nat.sub_diag, firstn_O, app_nil_r.
    rewrite (firstn_all2 s1) by lia.
    rewrite firstn_app, Hs1.
    replace (Z.to_nat (len q) - (length (items q) - Z.to_nat (head q)))%nat
      with (Z.to_nat (tail q)) by lia.
    rewrite (firstn_all2 s1) by lia.
    unfold R; rewrite skipn_repeat, <- app_assoc. unfold s2. do 4 f_equal. lia.
Qed.

Lemma contents_head0 (q : Queue) (l r : list T) :
  inv q -> head q = 0 -> items q = l ++ r ->
  Z.to_nat (len q) = length l -> contents zero q = l.
Proof.
  intros Hinv H0 Hit Hl. rewrite (contents_rotation q Hinv), H0. cbn [Z.to_nat].
  rewrite skipn_0, Hit, Hl, <- app_assoc, firstn_app, Nat.sub_diag, firstn_O,
    app_nil_r.
  apply firstn_all.
Qed.

(** A successful resize of an open queue to a new positive capacity. *)
Lemma Resize_ok (q : Queue) (newCap : Z) :
  inv q -> closed q = false -> newCap <> cap q -> 0 < newCap ->
  exists q', Resize zero q newCap = Ret q' None /\ inv q' /\
    contents zero q' = contents zero q /\ len q' = len q /\
    cap q' = newCap /\ closed q' = closed q /\ head q' = 0 /\
    slen (items q') = Z.max newCap (len q).
Proof.
  intros Hinv Hcl Hne Hpos. pose proof Hinv as Hinv'. inv_destruct Hinv'.
  unfold Resize.
  replace (newCap =? cap q) with false by (symmetry; apply Z.eqb_neq; exact Hne).
  replace (newCap <=? 0) with false by (symmetry; apply Z.leb_gt; exact Hpos).
  rewrite Hcl.
  set (ns := if len q >? newCap then len q else newCap).
  assert (Hns : ns = Z.max newCap (len q)).
  { unfold ns; destruct (Z.gtb_spec (len q) newCap); lia. }
  rewrite go_make_ok by lia.
  rewrite (resize_copy_ok q ns Hinv) by lia.
  rewrite go_rem_ok by lia.
  eexists; split; [reflexivity|].
  set (its := contents zero q ++ repeat zero (Z.to_nat ns - Z.to_nat (len q))).
  assert (Hits : slen its = ns).
  { unfold its, slen. rewrite length_app, repeat_length, length_contents. lia. }
  assert (Hinv2 : inv (mkQueue its 0 (len q mod ns) (len q) newCap (closed q))).
  { unfold inv; cbn [items head tail len cap closed]; rewrite Hits.
    pose proof (mod_range (len q) ns ltac:(lia)).
    repeat split; try lia. }
  split; [exact Hinv2|].
  split; [|cbn [len cap closed head items]; rewrite Hits; repeat split; lia].
  eapply contents_head0; [exact Hinv2 | reflexivity | | ].
  - cbn [items]. reflexivity.
  - cbn [len]. now rewrite length_contents.
Qed.

(** ** The invariant holds in every reachable state *)

Lemma New_inv (c : Z) (q : Queue) : New zero c = Some q -> inv q.
Proof.
  unfold New. destruct (Z.leb_spec c 0); [discriminate|].
  rewrite go_make_ok by lia. intros E; injection E as <-.
  unfold inv, slen; cbn [items head tail len cap closed].
  rewrite repeat_length. repeat split; try lia.
Qed.

Lemma post_inv (q : Queue) (o : op) (q' : Queue) :
  inv q -> post zero q o = Some q' -> inv q'.
Proof.
  intros Hinv Hpost. pose proof Hinv as Hinv'. inv_destruct Hinv'.
  destruct o as [x|x| | |newCap| | |]; cbn [post] in Hpost.
  - unfold TryEnqueue in Hpost.
    destruct (closed q); [injection Hpost as <-; exact Hinv|].
    destruct (Z.leb_spec (cap q) (len q)); [injection Hpost as <-; exact Hinv|].
    destruct (enqueue_body_ok q x Hinv ltac:(lia)) as (q1 & E & Hi & _).
    rewrite E in Hpost; injection Hpost as <-; exact Hi.
  - unfold Enqueue in Hpost.
    destruct (closed q), (Z.leb_spec (cap q) (len q)); cbn in Hpost;
      try discriminate; try (injection Hpost as <-; exact Hinv).
    destruct (enqueue_body_ok q x Hinv ltac:(lia)) as (q1 & E & Hi & _).
    rewrite E in Hpost; injection Hpost as <-; exact Hi.
  - unfold TryDequeue in Hpost.
    destruct (Z.eqb_spec (len q) 0).
    { destruct (closed q); injection Hpost as <-; exact Hinv. }
    destruct (dequeue_body_ok q Hinv ltac:(lia)) as (q1 & y & E & Hi & _).
    rewrite E in Hpost; injection Hpost as <-; exact Hi.
  - unfold Dequeue in Hpost.
    destruct (Z.eqb_spec (len q) 0).
    { destruct (closed q); [injection Hpost as <-; exact Hinv | discriminate]. }
    destruct (dequeue_body_ok q Hinv ltac:(lia)) as (q1 & y & E & Hi & _).
    rewrite E in Hpost; injection Hpost as <-; exact Hi.
  - destruct (Z.eq_dec newCap (cap q)) as [Heq|Hne].
    { unfold Resize in Hpost. rewrite (proj2 (Z.eqb_eq _ _) Heq) in Hpost.
      injection Hpost as <-; exact Hinv. }
    destruct (Z.leb_spec newCap 0).
    { unfold Resize in Hpost.
      rewrite (proj2 (Z.eqb_neq _ _) Hne), (proj2 (Z.leb_le _ _) H) in Hpost.
      injection Hpost as <-; exact Hinv. }
    destruct (closed q) eqn:Hcl.
    { unfold Resize in Hpost.
      rewrite (proj2 (Z.eqb_neq _ _) Hne), (proj2 (Z.leb_gt _ _) H), Hcl in Hpost.
      injection Hpost as <-; exact Hinv. }
    destruct (Resize_ok q newCap Hinv Hcl Hne H) as (q1 & E & Hi & _).
    rewrite E in Hpost; injection Hpost as <-; exact Hi.
  - unfold Close in Hpost. destruct (closed q); injection Hpost as <-;
      [exact Hinv|]. unfold inv; cbn [items head tail len cap closed].
    repeat split; lia.
  - injection Hpost as <-; exact Hinv.
  - injection Hpost as <-; exact Hinv.
Qed.

Lemma reachable_inv (q : Queue) : reachable zero q -> inv q.
Proof.
  induction 1 as [c q Hnew | q o q' _ IH Hpost].
  - exact (New_inv c q Hnew).
  - exact (post_inv q o q' IH Hpost).
Qed.

Lemma run_ops_reachable (q : Queue) (os : list op) (q' : Queue) :
  reachable zero q -> run_ops zero q os = Some q' -> reachable zero q'.
Proof.
  revert q; induction os as [|o os IH]; intros q Hq E; cbn [run_ops] in E.
  - now injection E as <-.
  - destruct (post zero q o) as [q1|] eqn:Ep; [|discriminate].
    exact (IH q1 (reach_step zero q o q1 Hq Ep) E).
Qed.

Lemma New_reachable_run (c : Z) (q0 : Queue) (os : list op) (q : Queue) :
  New zero c = Some q0 -> run_ops zero q0 os = Some q -> reachable zero q.
Proof.
  intros Hn E. exact (run_ops_reachable q0 os q (reach_new zero c q0 Hn) E).
Qed.

(** ** Calls that reach their common body *)

Lemma TryEnqueue_open (q : Queue) (x : T) :
  closed q = false -> len q < cap q -> TryEnqueue q x = enqueue_body q x.
Proof.
  intros Hc Hl; unfold TryEnqueue; rewrite Hc.
  now replace (cap q <=? len q) with false by (symmetry; apply Z.leb_gt; lia).
Qed.

Lemma Enqueue_open (q : Queue) (x : T) :
  closed q = false -> len q < cap q -> Enqueue q x = enqueue_body q x.
Proof.
  intros Hc Hl; unfold Enqueue; rewrite Hc.
  now replace (cap q <=? len q) with false by (symmetry; apply Z.leb_gt; lia).
Qed.

Lemma TryDequeue_nonempty (q : Queue) :
  0 < len q -> TryDequeue zero q = dequeue_body zero q.
Proof.
  intros Hl; unfold TryDequeue.
  now replace (len q =? 0) with false by (symmetry; apply Z.eqb_neq; lia).
Qed.

Lemma Dequeue_nonempty (q : Queue) :
  0 < len q -> Dequeue zero q = dequeue_body zero q.
Proof.
  intros Hl; unfold Dequeue.
  now replace (len q =? 0) with false by (symmetry; apply Z.eqb_neq; lia).
Qed.

(** ** Sequences of enqueues and dequeues *)

Lemma enqueue_seq_ok (q : Queue) (es : list (bool * T)) :
  inv q -> closed q = false -> len q + Z.of_nat (length es) <= cap q ->
  exists q1, enqueue_seq q es = Some q1 /\ inv q1 /\
    contents zero q1 = contents zero q ++ map snd es /\
    len q1 = len q + Z.of_nat (length es) /\ cap q1 = cap q /\ closed q1 = false.
Proof.
  revert q; induction es as [|[b x] es IH]; intros q Hinv Hc Hlen.
  - exists q; cbn [enqueue_seq map]; rewrite app_nil_r.
    split; [reflexivity|]; split; [exact Hinv|].
    repeat split; auto; cbn [length Z.of_nat]; lia.
  - cbn [length] in Hlen. rewrite Nat2Z.inj_succ in Hlen.
    destruct (enqueue_body_ok q x Hinv ltac:(lia))
      as (q1 & E & Hi1 & Hc1 & Hl1 & Hcap1 & Hcl1).
    assert (Hstep : (if b then Enqueue q x else TryEnqueue q x) = Ret q1 None).
    { destruct b; [rewrite Enqueue_open | rewrite TryEnqueue_open]; auto; lia. }
    destruct (IH q1 Hi1 ltac:(congruence) ltac:(lia))
      as (q2 & E2 & Hi2 & Hc2 & Hl2 & Hcap2 & Hcl2).
    exists q2; cbn [enqueue_seq map]; rewrite Hstep.
    split; [exact E2|]; split; [exact Hi2|].
    repeat split.
    + rewrite Hc2, Hc1, <- app_assoc; reflexivity.
    + cbn [length]; rewrite Nat2Z.inj_succ; lia.
    + congruence.
    + exact Hcl2.
Qed.

Lemma dequeue_seq_ok (q : Queue) (bs : list bool) :
  inv q -> Z.of_nat (length bs) <= len q ->
  exists q2, dequeue_seq zero q bs = Some (q2, firstn (length bs) (contents zero q)) /\
    inv q2 /\ contents zero q2 = skipn (length bs) (contents zero q) /\
    len q2 = len q - Z.of_nat (length bs) /\ cap q2 = cap q /\
    closed q2 = closed q.
Proof.
  revert q; induction bs as [|b bs IH]; intros q Hinv Hlen.
  - exists q; cbn [dequeue_seq length firstn skipn].
    split; [reflexivity|]; split; [exact Hinv|].
    repeat split; lia.
  - cbn [length] in Hlen |- *. rewrite Nat2Z.inj_succ in Hlen.
    destruct (dequeue_body_ok q Hinv ltac:(lia))
      as (q1 & y & E & Hi1 & Hc1 & Hl1 & Hcap1 & Hcl1).
    assert (Hstep : (if b then Dequeue zero q else TryDequeue zero q) =
                    Ret q1 (y, None)).
    { destruct b; [rewrite Dequeue_nonempty | rewrite TryDequeue_nonempty];
        auto; lia. }
    destruct (IH q1 Hi1 ltac:(lia))
      as (q2 & E2 & Hi2 & Hc2 & Hl2 & Hcap2 & Hcl2).
    exists q2; cbn [dequeue_seq]; rewrite Hstep, E2, Hc1.
    cbn [firstn skipn].
    split; [reflexivity|]; split; [exact Hi2|].
    repeat split; try congruence. lia.
Qed.

Lemma New_state (c : Z) (q : Queue) :
  New zero c = Some q ->
  contents zero q = [] /\ len q = 0 /\ cap q = c /\ closed q = false.
Proof.
  unfold New. destruct (Z.leb_spec c 0); [discriminate|].
  rewrite go_make_ok by lia. intros E; injection E as <-.
  repeat split.
Qed.

Lemma drain_ok (q : Queue) (bs : list bool) :
  inv q -> length bs = Z.to_nat (len q) ->
  exists q2, dequeue_seq zero q bs = Some (q2, contents zero q) /\
    len q2 = 0 /\ cap q2 = cap q /\ closed q2 = closed q.
Proof.
  intros Hinv Hbs. pose proof Hinv as Hinv'. inv_destruct Hinv'.
  destruct (dequeue_seq_ok q bs Hinv ltac:(lia))
    as (q2 & E & Hi2 & Hc2 & Hl2 & Hcap2 & Hcl2).
  exists q2. rewrite firstn_all2 in E by (rewrite length_contents; lia).
  repeat split; auto. lia.
Qed.

(** Every [Resize] of an open queue that returns [nil]. *)
Lemma Resize_success (q q' : Queue) (n : Z) :
  inv q -> closed q = false -> Resize zero q n = Ret q' None ->
  inv q' /\ contents zero q' = contents zero q /\ len q' = len q /\
  cap q' = n /\ closed q' = closed q /\
  (q' = q \/ (head q' = 0 /\ tail q' = len q mod slen (items q') /\
              slen (items q') = Z.max n (len q))).
Proof.
  intros Hinv Hcl E.
  destruct (Z.eq_dec n (cap q)) as [Heq|Hne].
  { unfold Resize in E. rewrite (proj2 (Z.eqb_eq _ _) Heq) in E.
    injection E as <-. split; [exact Hinv|].
    repeat (split; [solve [auto] |]). left; reflexivity. }
  destruct (Z.leb_spec n 0) as [Hle|Hgt].
  { unfold Resize in E.
    rewrite (proj2 (Z.eqb_neq _ _) Hne), (proj2 (Z.leb_le _ _) Hle) in E.
    discriminate. }
  destruct (Resize_ok q n Hinv Hcl Hne Hgt)
    as (q1 & E1 & Hi1 & Hc1 & Hl1 & Hcap1 & Hcl1 & Hh1 & HN1).
  rewrite E1 in E; injection E as <-.
  pose proof Hi1 as Hi1'. inv_destruct Hi1'.
  split; [exact Hi1|]. repeat (split; [solve [auto] |]).
  right; repeat split; auto.
  rewrite Htl, Hh1, Hl1; reflexivity.
Qed.

Lemma enqueue_body_shape (q q' : Queue) (x : T) (r : option error) :
  inv q -> enqueue_body q x = Ret q' r ->
  r = None /\ head q' = head q /\ slen (items q') = slen (items q) /\
  tail q' = (tail q + 1) mod slen (items q).
Proof.
  intros Hinv E. inv_destruct Hinv. unfold enqueue_body in E.
  rewrite slice_set_ok in E by lia.
  rewrite go_rem_ok in E by (rewrite ?slen_set_nth; lia).
  injection E as <- <-. cbn [head items tail]. rewrite !slen_set_nth. auto.
Qed.

Lemma dequeue_body_shape (q q' : Queue) (r : T * option error) :
  inv q -> dequeue_body zero q = Ret q' r ->
  snd r = None /\ tail q' = tail q /\ slen (items q') = slen (items q) /\
  head q' = (head q + 1) mod slen (items q).
Proof.
  intros Hinv E. inv_destruct Hinv. unfold dequeue_body in E.
  rewrite slice_get_ok in E by lia. rewrite slice_set_ok in E by lia.
  rewrite go_rem_ok in E by (rewrite ?slen_set_nth; lia).
  injection E as <- <-. cbn [head items tail snd]. rewrite !slen_set_nth. auto.
Qed.

Lemma enqueue_success (q q' : Queue) (x : T) :
  inv q -> TryEnqueue q x = Ret q' None \/ Enqueue q x = Ret q' None ->
  closed q = false /\ len q < cap q /\ enqueue_body q x = Ret q' None.
Proof.
  intros Hinv [E|E].
  - unfold TryEnqueue in E. destruct (closed q); [discriminate|].
    destruct (Z.leb_spec (cap q) (len q)); [discriminate|]. auto.
  - unfold Enqueue in E.
    destruct (closed q), (Z.leb_spec (cap q) (len q)); cbn in E;
      try discriminate; auto.
Qed.

Lemma dequeue_success (q q' : Queue) (x : T) :
  inv q ->
  TryDequeue zero q = Ret q' (x, None) \/ Dequeue zero q = Ret q' (x, None) ->
  0 < len q /\ dequeue_body zero q = Ret q' (x, None).
Proof.
  intros Hinv E. inv_destruct Hinv.
  destruct E as [E|E]; [unfold TryDequeue in E | unfold Dequeue in E];
    destruct (Z.eqb_spec (len q) 0);
    try (destruct (closed q); discriminate); split; auto; lia.
Qed.

Lemma dequeue_seq_some (q r : Queue) (bs : list bool) (xs : list T) :
  inv q -> dequeue_seq zero q bs = Some (r, xs) ->
  Z.of_nat (length bs) <= len q.
Proof.
  revert q xs; induction bs as [|b bs IH]; intros q xs Hinv E.
  - cbn; pose proof Hinv as H; inv_destruct H; lia.
  - cbn [dequeue_seq] in E. cbn [length]; rewrite Nat2Z.inj_succ.
    pose proof Hinv as H; inv_destruct H.
    destruct (Z.eqb_spec (len q) 0) as [Hz|Hnz].
    + destruct b; unfold Dequeue, TryDequeue in E; rewrite Hz in E; cbn in E;
        destruct (closed q); discriminate.
    + destruct (dequeue_body_ok q Hinv ltac:(lia))
        as (q1 & y & E1 & Hi1 & _ & Hl1 & _).
      assert (Hstep : (if b then Dequeue zero q else TryDequeue zero q) =
                      Ret q1 (y, None)).
      { destruct b; [rewrite Dequeue_nonempty | rewrite TryDequeue_nonempty];
          auto; lia. }
      rewrite Hstep in E.
      destruct (dequeue_seq zero q1 bs) as [[r1 xs1]|] eqn:E2; [|discriminate].
      specialize (IH q1 xs1 Hi1). rewrite E2 in IH. injection E as <- _.
      specialize (IH eq_refl). lia.
Qed.

(** ** Cleared slots *)

Lemma diff_mod (a b N : Z) :
  0 <= a < N -> 0 <= b < N ->
  ((a - b) mod N = a - b /\ b <= a) \/ ((a - b) mod N = a - b + N /\ a < b).
Proof.
  intros Ha Hb. destruct (Z_lt_le_dec a b) as [Hlt|Hge].
  - right; split; [|lia].
    rewrite <- (Z.mod_add (a - b) 1 N), Z.mul_1_l by lia. apply Z.mod_small; lia.
  - left; split; [apply Z.mod_small; lia | lia].
Qed.

Lemma enqueue_body_eq (q : Queue) (x : T) :
  inv q ->
  enqueue_body q x =
  Ret (mkQueue (set_nth (items q) (Z.to_nat (tail q)) x) (head q)
         ((tail q + 1) mod slen (items q)) (len q + 1) (cap q) (closed q)) None.
Proof.
  intros Hinv; inv_destruct Hinv. unfold enqueue_body.
  rewrite slice_set_ok by lia.
  rewrite go_rem_ok by (rewrite ?slen_set_nth; lia).
  now rewrite slen_set_nth.
Qed.

Lemma dequeue_body_eq (q : Queue) :
  inv q ->
  dequeue_body zero q =
  Ret (mkQueue (set_nth (items q) (Z.to_nat (head q)) zero)
         ((head q + 1) mod slen (items q)) (tail q) (len q - 1) (cap q) (closed q))
      (nth (Z.to_nat (head q)) (items q) zero, None).
Proof.
  intros Hinv; inv_destruct Hinv. unfold dequeue_body.
  rewrite slice_get_ok by lia. rewrite slice_set_ok by lia.
  rewrite go_rem_ok by (rewrite ?slen_set_nth; lia).
  now rewrite slen_set_nth.
Qed.

(** The state a successful [Resize] leaves: the items from index 0 of a
    fresh zero-filled slice of length [max(newCap, len)]. *)
Lemma Resize_eq (q : Queue) (newCap : Z) :
  inv q -> closed q = false -> newCap <> cap q -> 0 < newCap ->
  Resize zero q newCap =
  Ret (mkQueue (contents zero q ++
                repeat zero (Z.to_nat (Z.max newCap (len q)) - Z.to_nat (len q)))
         0 (len q mod Z.max newCap (len q)) (len q) newCap false) None.
Proof.
  intros Hinv Hcl Hne Hpos. pose proof Hinv as Hinv'. inv_destruct Hinv'.
  unfold Resize.
  replace (newCap =? cap q) with false by (symmetry; apply Z.eqb_neq; exact Hne).
  replace (newCap <=? 0) with false by (symmetry; apply Z.leb_gt; exact Hpos).
  rewrite Hcl.
  replace (if len q >? newCap then len q else newCap) with (Z.max newCap (len q))
    by (destruct (Z.gtb_spec (len q) newCap); lia).
  rewrite go_make_ok by lia.
  rewrite (resize_copy_ok q (Z.max newCap (len q)) Hinv) by lia.
  rewrite go_rem_ok by lia. reflexivity.
Qed.

Lemma free_zero_enqueue (q : Queue) (x : T) :
  inv q -> len q < cap q -> free_slots_zero zero q ->
  free_slots_zero zero
    (mkQueue (set_nth (items q) (Z.to_nat (tail q)) x) (head q)
       ((tail q + 1) mod slen (items q)) (len q + 1) (cap q) (closed q)).
Proof.
  intros Hinv Hlt Hfz. pose proof Hinv as Hinv'. inv_destruct Hinv'.
  unfold free_slots_zero; cbn [items head len].
  intros i Hi Hfree. rewrite length_set_nth in Hi. rewrite slen_set_nth in Hfree.
  assert (HNn : slen (items q) = Z.of_nat (length (items q))) by reflexivity.
  destruct (diff_mod (Z.of_nat i) (head q) (slen (items q))) as [[E L]|[E L]];
    try lia; rewrite E in Hfree;
  destruct (wrap_cases (head q) (len q) (slen (items q))) as [[E2 L2]|[E2 L2]];
    try lia;
  (rewrite nth_set_nth_ne by lia; apply Hfz; [lia|]; rewrite E; lia).
Qed.

Lemma free_zero_dequeue (q : Queue) :
  inv q -> 0 < len q -> free_slots_zero zero q ->
  free_slots_zero zero
    (mkQueue (set_nth (items q) (Z.to_nat (head q)) zero)
       ((head q + 1) mod slen (items q)) (tail q) (len q - 1) (cap q) (closed q)).
Proof.
  intros Hinv Hpos Hfz. pose proof Hinv as Hinv'. inv_destruct Hinv'.
  unfold free_slots_zero; cbn [items head len].
  intros i Hi Hfree. rewrite length_set_nth in Hi. rewrite slen_set_nth in Hfree.
  assert (HNn : slen (items q) = Z.of_nat (length (items q))) by reflexivity.
  destruct (Nat.eq_dec i (Z.to_nat (head q))) as [->|Hne].
  { apply nth_set_nth_eq. lia. }
  rewrite nth_set_nth_ne by exact Hne. apply Hfz; [exact Hi|].
  destruct (wrap_cases (head q) 1 (slen (items q))) as [[E2 L2]|[E2 L2]];
    try lia; rewrite E2 in Hfree.
  - destruct (diff_mod (Z.of_nat i) (head q + 1) (slen (items q)))
      as [[E3 L3]|[E3 L3]]; try lia; rewrite E3 in Hfree;
    destruct (diff_mod (Z.of_nat i) (head q) (slen (items q))) as [[E L]|[E L]];
      try lia; rewrite E; lia.
  - replace (head q + 1 - slen (items q)) with 0 in Hfree by lia.
    destruct (diff_mod (Z.of_nat i) 0 (slen (items q))) as [[E3 L3]|[E3 L3]];
      try lia; rewrite E3 in Hfree;
    destruct (diff_mod (Z.of_nat i) (head q) (slen (items q))) as [[E L]|[E L]];
      try lia; rewrite E; lia.
Qed.

Lemma free_zero_same (q q' : Queue) :
  items q' = items q -> head q' = head q -> len q' = len q ->
  free_slots_zero zero q -> free_slots_zero zero q'.
Proof.
  intros E1 E2 E3 Hfz i. unfold free_slots_zero in *. rewrite E1, E2, E3.
  apply Hfz.
Qed.

Lemma post_free_zero (q : Queue) (o : op) (q' : Queue) :
  inv q -> free_slots_zero zero q -> post zero q o = Some q' ->
  free_slots_zero zero q'.
Proof.
  intros Hinv Hfz Hpost. pose proof Hinv as Hinv'. inv_destruct Hinv'.
  destruct o as [x|x| | |newCap| | |]; cbn [post] in Hpost.
  - unfold TryEnqueue in Hpost.
    destruct (closed q); [injection Hpost as <-; exact Hfz|].
    destruct (Z.leb_spec (cap q) (len q)); [injection Hpost as <-; exact Hfz|].
    rewrite (enqueue_body_eq q x Hinv) in Hpost; injection Hpost as <-.
    apply free_zero_enqueue; auto.
  - unfold Enqueue in Hpost.
    destruct (closed q), (Z.leb_spec (cap q) (len q)); cbn in Hpost;
      try discriminate; try (injection Hpost as <-; exact Hfz).
    rewrite (enqueue_body_eq q x Hinv) in Hpost; injection Hpost as <-.
    apply free_zero_enqueue; auto.
  - unfold TryDequeue in Hpost.
    destruct (Z.eqb_spec (len q) 0).
    { destruct (closed q); injection Hpost as <-; exact Hfz. }
    rewrite (dequeue_body_eq q Hinv) in Hpost; injection Hpost as <-.
    apply free_zero_dequeue; auto; lia.
  - unfold Dequeue in Hpost.
    destruct (Z.eqb_spec (len q) 0).
    { destruct (closed q); [injection Hpost as <-; exact Hfz | discriminate]. }
    rewrite (dequeue_body_eq q Hinv) in Hpost; injection Hpost as <-.
    apply free_zero_dequeue; auto; lia.
  - destruct (Z.eq_dec newCap (cap q)) as [Heq|Hne].
    { unfold Resize in Hpost. rewrite (proj2 (Z.eqb_eq _ _) Heq) in Hpost.
      injection Hpost as <-; exact Hfz. }
    destruct (Z.leb_spec newCap 0).
    { unfold Resize in Hpost.
      rewrite (proj2 (Z.eqb_neq _ _) Hne), (proj2 (Z.leb_le _ _) H) in Hpost.
      injection Hpost as <-; exact Hfz. }
    destruct (closed q) eqn:Hcl.
    { unfold Resize in Hpost.
      rewrite (proj2 (Z.eqb_neq _ _) Hne), (proj2 (Z.leb_gt _ _) H), Hcl in Hpost.
      injection Hpost as <-; exact Hfz. }
    rewrite (Resize_eq q newCap Hinv Hcl Hne H) in Hpost. injection Hpost as <-.
    unfold free_slots_zero; cbn [items head len].
    intros i Hi Hfree.
    rewrite length_app, repeat_length, length_contents in Hi.
    assert (Hs : slen (contents zero q ++
                  repeat zero (Z.to_nat (Z.max newCap (len q)) - Z.to_nat (len q)))
                 = Z.of_nat (Z.to_nat (len q) +
                     (Z.to_nat (Z.max newCap (len q)) - Z.to_nat (len q))))
      by (unfold slen; rewrite length_app, repeat_length, length_contents; reflexivity).
    rewrite Hs, Z.sub_0_r, Z.mod_small in Hfree by lia.
    rewrite app_nth2 by (rewrite length_contents; lia).
    apply nth_repeat.
  - unfold Close in Hpost. destruct (closed q); injection Hpost as <-;
      [exact Hfz|]. exact (free_zero_same q _ eq_refl eq_refl eq_refl Hfz).
  - injection Hpost as <-; exact Hfz.
  - injection Hpost as <-; exact Hfz.
Qed.

(** ** The first version against the later one *)

Lemma v1_enqueue_bridge (q : V1.Queue) (x : T) :
  ring_state q ->
  exists q', V1.enqueue_body q x = Some q' /\
    enqueue_body (as_later q) x = Ret (as_later q') None /\ V1.cap q' = V1.cap q.
Proof.
  intros [Hinv Hcap]. pose proof Hinv as Hinv'. inv_destruct Hinv'.
  cbn [as_later items head tail len cap closed] in *.
  unfold V1.enqueue_body. rewrite slice_set_ok by lia.
  rewrite go_rem_ok by lia.
  eexists; split; [reflexivity|]. split; [|reflexivity].
  rewrite (enqueue_body_eq (as_later q) x Hinv). unfold as_later; cbn.
  now rewrite Hcap.
Qed.

Lemma v1_dequeue_bridge (q : V1.Queue) :
  ring_state q ->
  exists q' y, V1.dequeue_body zero q = Some (q', y) /\
    dequeue_body zero (as_later q) = Ret (as_later q') (y, None) /\
    V1.cap q' = V1.cap q.
Proof.
  intros [Hinv Hcap]. pose proof Hinv as Hinv'. inv_destruct Hinv'.
  cbn [as_later items head tail len cap closed] in *.
  unfold V1.dequeue_body. rewrite slice_get_ok by lia.
  rewrite slice_set_ok by lia. rewrite go_rem_ok by lia.
  do 2 eexists; split; [reflexivity|]. split; [|reflexivity].
  rewrite (dequeue_body_eq (as_later q) Hinv). unfold as_later; cbn.
  now rewrite Hcap.
Qed.

Lemma v1_resize_copy_eq (q : V1.Queue) (l : list T) :
  V1.resize_copy q l = resize_copy (as_later q) l.
Proof.
  unfold V1.resize_copy, resize_copy, as_later; cbn [items head tail len].
  now rewrite Z.gtb_ltb.
Qed.

(** A first-version [Resize] to [n >= len], [n <> q.cap]. *)
Lemma v1_Resize_eq (q : V1.Queue) (n : Z) :
  ring_state q -> n <> V1.cap q -> V1.len q <= n ->
  V1.Resize zero q n =
  V1.Ret (V1.mkQueueV1 (contents zero (as_later q) ++
                     repeat zero (Z.to_nat n - Z.to_nat (V1.len q)))
         0 (V1.len q) (V1.len q) n) None.
Proof.
  intros [Hinv Hcap] Hne Hle. pose proof Hinv as Hinv'. inv_destruct Hinv'.
  cbn [as_later items head tail len cap closed] in *.
  unfold V1.Resize.
  replace (n =? V1.cap q) with false by (symmetry; apply Z.eqb_neq; exact Hne).
  replace (n <? V1.len q) with false by (symmetry; apply Z.ltb_ge; exact Hle).
  rewrite go_make_ok by lia. rewrite v1_resize_copy_eq.
  rewrite (resize_copy_ok (as_later q) n Hinv) by (cbn; lia).
  reflexivity.
Qed.

(** * The claims *)

(** C1: on a fresh open queue of capacity [c], enqueuing at most [c] items
    (each by [TryEnqueue] or [Enqueue]) succeeds, and as many dequeues (each by
    [TryDequeue] or [Dequeue]) then return exactly those items in the order
    they were enqueued, wrapping the ring when [c] items were enqueued. *)
Theorem fifo_order (c : Z) (q0 : Queue) (es : list (bool * T)) (bs : list bool) :
  New zero c = Some q0 -> Z.of_nat (length es) <= c -> length bs = length es ->
  exists q1 q2, enqueue_seq q0 es = Some q1 /\
    dequeue_seq zero q1 bs = Some (q2, map snd es) /\ Len q2 = 0.
Proof.
  intros Hnew Hc Hbs.
  destruct (New_state c q0 Hnew) as (Hc0 & Hl0 & Hcap0 & Hcl0).
  pose proof (New_inv c q0 Hnew) as Hinv0.
  destruct (enqueue_seq_ok q0 es Hinv0 Hcl0 ltac:(lia))
    as (q1 & E1 & Hi1 & Hc1 & Hl1 & _ & _).
  destruct (drain_ok q1 bs Hi1 ltac:(lia)) as (q2 & E2 & Hl2 & _ & _).
  exists q1, q2. rewrite Hc1, Hc0 in E2. repeat split; auto.
Qed.

(** C2: a [Resize] of an open reachable queue that returns [nil] keeps the
    stored items and their order (the dequeues that follow return them),
    keeps [Len()], and [Cap()] then returns the requested capacity. *)
Theorem resize_preserves_order (q q' : Queue) (newCap : Z) :
  reachable zero q -> closed q = false -> Resize zero q newCap = Ret q' None ->
  contents zero q' = contents zero q /\ Len q' = Len q /\ Cap q' = newCap /\
  (forall bs, length bs = Z.to_nat (Len q) ->
     exists q2, dequeue_seq zero q' bs = Some (q2, contents zero q)).
Proof.
  intros Hr Hcl E. pose proof (reachable_inv q Hr) as Hinv.
  destruct (Resize_success q q' newCap Hinv Hcl E)
    as (Hi' & Hc' & Hl' & Hcap' & _ & _).
  unfold Len, Cap. repeat split; auto.
  intros bs Hbs. destruct (drain_ok q' bs Hi' ltac:(lia)) as (q2 & E2 & _).
  exists q2. now rewrite E2, Hc'.
Qed.

(** C3 (as the code has it): on a closed queue [Resize] leaves the state
    unchanged for every [newCap]; it returns [nil] when [newCap] equals the
    current capacity, [ErrCapacityNotPositive] when [newCap <= 0], and
    [ErrQueueClosed] for every other [newCap]. *)
Theorem resize_closed (q : Queue) (newCap : Z) :
  closed q = true ->
  Resize zero q newCap =
  Ret q (if newCap =? cap q then None
         else if newCap <=? 0 then Some ErrCapacityNotPositive
         else Some ErrQueueClosed).
Proof.
  intros Hcl; unfold Resize.
  destruct (newCap =? cap q); [reflexivity|].
  destruct (newCap <=? 0); [reflexivity|].
  now rewrite Hcl.
Qed.

(** C4 (as the code has it): in every reachable state [0 <= len <= N] and
    [1 <= Cap() <= N], where [N = cap(q.items)] is the length of the backing
    slice; [len] may exceed [Cap()] after a shrink below the occupancy. *)
Theorem len_bounded_by_backing (q : Queue) :
  reachable zero q ->
  0 <= Len q <= slen (items q) /\ 1 <= Cap q <= slen (items q).
Proof.
  intros Hr. pose proof (reachable_inv q Hr) as Hinv. inv_destruct Hinv.
  unfold Len, Cap. lia.
Qed.

(** C5 (as the code has it): in every reachable state [head] and [tail] lie
    in [[0, N)] for the backing length [N = cap(q.items)] (with
    [Cap() <= N]); every enqueue advances [tail] and every dequeue advances
    [head] modulo [N], keeping [N]; a [Resize] returning [nil] either keeps
    the state or sets [head = 0] and [tail = len mod N'] for the new backing
    length [N' = max(newCap, len)]. *)
Theorem cursors_mod_backing (q : Queue) :
  reachable zero q ->
  0 <= head q < slen (items q) /\ 0 <= tail q < slen (items q) /\
  Cap q <= slen (items q) /\
  (forall x q', TryEnqueue q x = Ret q' None \/ Enqueue q x = Ret q' None ->
     slen (items q') = slen (items q) /\ head q' = head q /\
     tail q' = (tail q + 1) mod slen (items q)) /\
  (forall x q', TryDequeue zero q = Ret q' (x, None) \/
                Dequeue zero q = Ret q' (x, None) ->
     slen (items q') = slen (items q) /\ tail q' = tail q /\
     head q' = (head q + 1) mod slen (items q)) /\
  (forall n q', closed q = false -> Resize zero q n = Ret q' None ->
     q' = q \/ (head q' = 0 /\ tail q' = len q mod slen (items q') /\
                slen (items q') = Z.max n (len q))).
Proof.
  intros Hr. pose proof (reachable_inv q Hr) as Hinv.
  pose proof Hinv as Hinv'. inv_destruct Hinv'.
  unfold Cap. repeat (split; [lia|]). split; [|split].
  - intros x q' E.
    destruct (enqueue_success q q' x Hinv E) as (_ & _ & E').
    destruct (enqueue_body_shape q q' x None Hinv E') as (_ & H1 & H2 & H3).
    auto.
  - intros x q' E.
    destruct (dequeue_success q q' x Hinv E) as (_ & E').
    destruct (dequeue_body_shape q q' (x, None) Hinv E') as (_ & H1 & H2 & H3).
    auto.
  - intros n q' Hcl E.
    destruct (Resize_success q q' n Hinv Hcl E) as (_ & _ & _ & _ & _ & H).
    exact H.
Qed.

(** C6: closing an open reachable queue returns [nil] and keeps its items;
    a second [Close] returns [ErrQueueClosed] and changes nothing; [Len()]
    dequeues (any mix of [TryDequeue] and [Dequeue]) then return the items in
    their enqueue order, after which [TryDequeue] and [Dequeue] return
    [ErrQueueClosed] (with the zero value) and change nothing. *)
Theorem close_then_drain (q : Queue) (bs : list bool) :
  reachable zero q -> closed q = false -> length bs = Z.to_nat (Len q) ->
  exists q1 q2,
    Close q = Ret q1 None /\ contents zero q1 = contents zero q /\
    Close q1 = Ret q1 (Some ErrQueueClosed) /\
    dequeue_seq zero q1 bs = Some (q2, contents zero q) /\ Len q2 = 0 /\
    TryDequeue zero q2 = Ret q2 (zero, Some ErrQueueClosed) /\
    Dequeue zero q2 = Ret q2 (zero, Some ErrQueueClosed).
Proof.
  intros Hr Hcl Hbs. pose proof (reachable_inv q Hr) as Hinv.
  set (q1 := mkQueue (items q) (head q) (tail q) (len q) (cap q) true).
  assert (Hi1 : inv q1) by (pose proof Hinv as H; inv_destruct H; unfold inv, q1;
                           cbn [items head tail len cap closed]; lia).
  destruct (drain_ok q1 bs Hi1 Hbs) as (q2 & E2 & Hl2 & _ & Hcl2).
  assert (Hc1 : contents zero q1 = contents zero q) by reflexivity.
  exists q1, q2. unfold Close. rewrite Hcl. cbn [closed] in Hcl2.
  split; [reflexivity|]. split; [exact Hc1|]. split; [reflexivity|].
  split; [rewrite E2, Hc1; reflexivity|]. split; [exact Hl2|].
  unfold TryDequeue, Dequeue. rewrite Hl2, Hcl2. auto.
Qed.

(** C7: a [Resize] of an open reachable queue to a capacity below its
    occupancy that returns [nil] keeps every item; along any following run of
    dequeues the declared capacity stays [newCap], and while
    [len >= newCap] every [TryEnqueue] returns [ErrQueueFull] (changing
    nothing) and [Enqueue] waits, while once [len < newCap] [TryEnqueue]
    succeeds. *)
Theorem shrink_keeps_items_gates_enqueue (q q' : Queue) (newCap : Z) :
  reachable zero q -> closed q = false -> newCap < Len q ->
  Resize zero q newCap = Ret q' None ->
  contents zero q' = contents zero q /\ Len q' = Len q /\ Cap q' = newCap /\
  (forall bs r xs, dequeue_seq zero q' bs = Some (r, xs) ->
     xs = firstn (length bs) (contents zero q) /\
     Len r = Len q - Z.of_nat (length bs) /\ Cap r = newCap /\
     (newCap <= Len r -> forall x,
        TryEnqueue r x = Ret r (Some ErrQueueFull) /\ Enqueue r x = Blocks) /\
     (Len r < newCap -> forall x, exists r', TryEnqueue r x = Ret r' None)).
Proof.
  intros Hr Hcl Hlt E. pose proof (reachable_inv q Hr) as Hinv.
  destruct (Resize_success q q' newCap Hinv Hcl E)
    as (Hi' & Hc' & Hl' & Hcap' & Hcl' & _).
  unfold Len, Cap in *. split; [exact Hc'|]. split; [exact Hl'|].
  split; [exact Hcap'|].
  intros bs r xs Ed.
  pose proof (dequeue_seq_some q' r bs xs Hi' Ed) as Hb.
  destruct (dequeue_seq_ok q' bs Hi' Hb)
    as (r1 & E1 & Hir & _ & Hlr & Hcapr & Hclr).
  rewrite E1 in Ed. injection Ed as <- <-.
  rewrite Hc'. split; [reflexivity|]. split; [lia|]. split; [lia|].
  assert (Hclr' : closed r1 = false) by congruence.
  split.
  - intros Hge x. unfold TryEnqueue, Enqueue. rewrite Hclr'.
    replace (cap r1 <=? len r1) with true by (symmetry; apply Z.leb_le; lia).
    split; reflexivity.
  - intros Hlt' x.
    destruct (enqueue_body_ok r1 x Hir ltac:(lia)) as (r' & Er & _).
    exists r'. rewrite TryEnqueue_open by (auto; lia). exact Er.
Qed.

(** C8: [TryEnqueue] never waits; on a closed queue it returns
    [ErrQueueClosed], and on an open queue with [len = cap] it returns
    [ErrQueueFull], in both cases with every field of the state unchanged. *)
Theorem try_enqueue_failures (q : Queue) (x : T) :
  TryEnqueue q x <> Blocks /\
  (closed q = true -> TryEnqueue q x = Ret q (Some ErrQueueClosed)) /\
  (closed q = false -> len q = cap q -> TryEnqueue q x = Ret q (Some ErrQueueFull)).
Proof.
  unfold TryEnqueue. split; [|split].
  - destruct (closed q); [discriminate|].
    destruct (cap q <=? len q); [discriminate|].
    unfold enqueue_body.
    destruct (slice_set (items q) (tail q) x); [|discriminate].
    destruct (go_rem (tail q + 1) (slen l)); discriminate.
  - intros Hc; now rewrite Hc.
  - intros Hc Hl; rewrite Hc.
    now replace (cap q <=? len q) with true by (symmetry; apply Z.leb_le; lia).
Qed.

(** C9: [TryDequeue] never waits; on a queue with [len = 0] it returns the
    zero value with [ErrQueueClosed] if the queue is closed and
    [ErrQueueEmpty] if it is open, with the state unchanged. *)
Theorem try_dequeue_empty (q : Queue) :
  TryDequeue zero q <> Blocks /\
  (len q = 0 -> closed q = true ->
     TryDequeue zero q = Ret q (zero, Some ErrQueueClosed)) /\
  (len q = 0 -> closed q = false ->
     TryDequeue zero q = Ret q (zero, Some ErrQueueEmpty)).
Proof.
  unfold TryDequeue. split; [|split].
  - destruct (len q =? 0); [destruct (closed q); discriminate|].
    unfold dequeue_body.
    destruct (slice_get (items q) (head q)); [|discriminate].
    destruct (slice_set (items q) (head q) zero); [|discriminate].
    destruct (go_rem (head q + 1) (slen l)); discriminate.
  - intros Hl Hc; now rewrite Hl, Hc.
  - intros Hl Hc; now rewrite Hl, Hc.
Qed.

(** C10: in every reachable state the backing slice of length [N]
    satisfies [1 <= N], [0 <= len <= N], [0 <= head < N], [0 <= tail < N] and
    [tail = (head + len) mod N] ([N] may exceed [Cap()]), so no enqueue,
    dequeue or resize call panics on an index, a slice bound or a zero
    divisor. *)
Theorem backing_array_invariant (q : Queue) :
  reachable zero q ->
  1 <= slen (items q) /\ 0 <= Len q <= slen (items q) /\
  0 <= head q < slen (items q) /\ 0 <= tail q < slen (items q) /\
  tail q = (head q + Len q) mod slen (items q) /\
  (forall x, TryEnqueue q x <> Panics /\ Enqueue q x <> Panics) /\
  TryDequeue zero q <> Panics /\ Dequeue zero q <> Panics /\
  (forall n, Resize zero q n <> Panics).
Proof.
  intros Hr. pose proof (reachable_inv q Hr) as Hinv.
  pose proof Hinv as H; inv_destruct H. unfold Len.
  repeat (split; [lia|]).
  split; [|split; [|split]].
  - intros x. destruct (Z.ltb_spec (len q) (cap q)) as [Hlt|Hge].
    + destruct (enqueue_body_ok q x Hinv Hlt) as (q1 & E & _).
      unfold TryEnqueue, Enqueue.
      destruct (closed q).
      * split; [discriminate|]. rewrite andb_false_r; discriminate.
      * replace (cap q <=? len q) with false by (symmetry; apply Z.leb_gt; lia).
        rewrite E; split; discriminate.
    + unfold TryEnqueue, Enqueue.
      replace (cap q <=? len q) with true by (symmetry; apply Z.leb_le; lia).
      destruct (closed q); split; discriminate.
  - unfold TryDequeue. destruct (Z.eqb_spec (len q) 0).
    + destruct (closed q); discriminate.
    + destruct (dequeue_body_ok q Hinv ltac:(lia)) as (q1 & y & E & _).
      rewrite E; discriminate.
  - unfold Dequeue. destruct (Z.eqb_spec (len q) 0).
    + destruct (closed q); discriminate.
    + destruct (dequeue_body_ok q Hinv ltac:(lia)) as (q1 & y & E & _).
      rewrite E; discriminate.
  - intros n.
    destruct (Z.eq_dec n (cap q)) as [Heq|Hne].
    { unfold Resize. rewrite (proj2 (Z.eqb_eq _ _) Heq). discriminate. }
    destruct (Z.leb_spec n 0) as [Hle|Hgt].
    { unfold Resize.
      rewrite (proj2 (Z.eqb_neq _ _) Hne), (proj2 (Z.leb_le _ _) Hle).
      discriminate. }
    destruct (closed q) eqn:Hcl.
    { unfold Resize.
      rewrite (proj2 (Z.eqb_neq _ _) Hne), (proj2 (Z.leb_gt _ _) Hgt), Hcl.
      discriminate. }
    destruct (Resize_ok q n Hinv Hcl Hne Hgt) as (q1 & E & _).
    rewrite E; discriminate.
Qed.

(** * Further properties of the code *)

(** [Enqueue] (lines 249-267) behaves as [TryEnqueue] except on an open
    queue with [len >= cap], where it waits; on a closed queue it returns
    [ErrQueueClosed] even when full. *)
Theorem enqueue_vs_try_enqueue (q : Queue) (x : T) :
  (closed q = false -> cap q <= len q -> Enqueue q x = Blocks) /\
  (closed q = true \/ len q < cap q -> Enqueue q x = TryEnqueue q x) /\
  (closed q = true -> Enqueue q x = Ret q (Some ErrQueueClosed)).
Proof.
  unfold Enqueue, TryEnqueue. split; [|split].
  - intros Hc Hl. rewrite Hc.
    now replace (cap q <=? len q) with true by (symmetry; apply Z.leb_le; lia).
  - intros [Hc|Hl].
    + now rewrite Hc, andb_false_r.
    + replace (cap q <=? len q) with false by (symmetry; apply Z.leb_gt; lia).
      destruct (closed q); reflexivity.
  - intros Hc; now rewrite Hc, andb_false_r.
Qed.

(** [Dequeue] (lines 292-311) behaves as [TryDequeue] except on an empty
    open queue, where it waits; in particular it keeps returning the stored
    items of a closed queue. *)
Theorem dequeue_vs_try_dequeue (q : Queue) :
  (len q = 0 -> closed q = false -> Dequeue zero q = Blocks) /\
  (closed q = true \/ len q <> 0 -> Dequeue zero q = TryDequeue zero q).
Proof.
  unfold Dequeue, TryDequeue. split.
  - intros Hl Hc; now rewrite Hl, Hc.
  - intros [Hc|Hl].
    + rewrite Hc. destruct (len q =? 0); reflexivity.
    + now replace (len q =? 0) with false by (symmetry; apply Z.eqb_neq; exact Hl).
Qed.

(** [New] (lines 201-211) panics exactly on a non-positive capacity, and
    otherwise builds an open, empty queue with [Cap() = N = c]. *)
Theorem new_queue (c : Z) :
  (c <= 0 -> New zero c = None) /\
  (0 < c -> exists q, New zero c = Some q /\ contents zero q = [] /\
     Len q = 0 /\ Cap q = c /\ closed q = false /\ slen (items q) = c).
Proof.
  split.
  - intros Hc; unfold New. now replace (c <=? 0) with true by (symmetry; apply Z.leb_le; lia).
  - intros Hc. unfold New.
    replace (c <=? 0) with false by (symmetry; apply Z.leb_gt; lia).
    rewrite go_make_ok by lia. eexists; split; [reflexivity|].
    unfold Len, Cap, slen; cbn [items len cap closed].
    rewrite repeat_length. repeat split; lia.
Qed.

(** On a reachable queue [TryEnqueue] succeeds exactly when the queue is
    open and [len < cap], and then appends the item at the back. *)
Theorem try_enqueue_appends (q : Queue) (x : T) :
  reachable zero q ->
  (forall q', TryEnqueue q x = Ret q' None ->
     closed q = false /\ len q < cap q /\
     contents zero q' = contents zero q ++ [x] /\ Len q' = Len q + 1 /\
     Cap q' = Cap q /\ closed q' = false) /\
  (closed q = false -> len q < cap q -> exists q', TryEnqueue q x = Ret q' None).
Proof.
  intros Hr. pose proof (reachable_inv q Hr) as Hinv. split.
  - intros q' E.
    destruct (enqueue_success q q' x Hinv (or_introl E)) as (Hc & Hl & E').
    destruct (enqueue_body_ok q x Hinv Hl) as (q1 & E1 & _ & Hc1 & Hl1 & Hcap1 & Hcl1).
    rewrite E1 in E'; injection E' as <-. unfold Len, Cap. repeat split; auto.
    congruence.
  - intros Hc Hl.
    destruct (enqueue_body_ok q x Hinv Hl) as (q1 & E1 & _).
    exists q1. rewrite TryEnqueue_open by auto. exact E1.
Qed.

(** On a reachable queue [TryDequeue] succeeds exactly when [len > 0], and
    then returns the front item and removes it. *)
Theorem try_dequeue_pops_front (q : Queue) :
  reachable zero q ->
  (forall q' x, TryDequeue zero q = Ret q' (x, None) ->
     contents zero q = x :: contents zero q' /\ Len q' = Len q - 1 /\
     Cap q' = Cap q /\ closed q' = closed q) /\
  (0 < len q -> exists q' x, TryDequeue zero q = Ret q' (x, None)).
Proof.
  intros Hr. pose proof (reachable_inv q Hr) as Hinv. split.
  - intros q' x E.
    destruct (dequeue_success q q' x Hinv (or_introl E)) as (Hl & E').
    destruct (dequeue_body_ok q Hinv Hl) as (q1 & y & E1 & _ & Hc1 & Hl1 & Hcap1 & Hcl1).
    rewrite E1 in E'; injection E' as <- <-. unfold Len, Cap. auto.
  - intros Hl.
    destruct (dequeue_body_ok q Hinv Hl) as (q1 & y & E1 & _).
    exists q1, y. rewrite TryDequeue_nonempty by exact Hl. exact E1.
Qed.

(** One call on a closed queue: it stays closed, and either nothing changes
    or the front item is removed. *)
Lemma post_closed (q : Queue) (o : op) (q' : Queue) :
  inv q -> closed q = true -> post zero q o = Some q' ->
  inv q' /\ closed q' = true /\
  (contents zero q' = contents zero q \/
   exists x, contents zero q = x :: contents zero q').
Proof.
  intros Hinv Hc Hpost.
  assert (Hsame : q' = q -> inv q' /\ closed q' = true /\
            (contents zero q' = contents zero q \/
             exists x, contents zero q = x :: contents zero q'))
    by (intros ->; auto).
  destruct o as [x|x| | |newCap| | |]; cbn [post] in Hpost.
  - unfold TryEnqueue in Hpost; rewrite Hc in Hpost.
    injection Hpost as <-; auto.
  - unfold Enqueue in Hpost; rewrite Hc, andb_false_r in Hpost.
    injection Hpost as <-; auto.
  - unfold TryDequeue in Hpost; rewrite Hc in Hpost.
    destruct (Z.eqb_spec (len q) 0); [injection Hpost as <-; auto|].
    pose proof Hinv as Hinv'; inv_destruct Hinv'.
    destruct (dequeue_body_ok q Hinv ltac:(lia)) as (q1 & y & E & Hi & Hc1 & _ & _ & Hcl).
    rewrite E in Hpost; injection Hpost as <-. split; [exact Hi|].
    split; [congruence|]. right; eauto.
  - unfold Dequeue in Hpost; rewrite Hc in Hpost.
    destruct (Z.eqb_spec (len q) 0); [injection Hpost as <-; auto|].
    pose proof Hinv as Hinv'; inv_destruct Hinv'.
    destruct (dequeue_body_ok q Hinv ltac:(lia)) as (q1 & y & E & Hi & Hc1 & _ & _ & Hcl).
    rewrite E in Hpost; injection Hpost as <-. split; [exact Hi|].
    split; [congruence|]. right; eauto.
  - unfold Resize in Hpost; rewrite Hc in Hpost.
    destruct (newCap =? cap q), (newCap <=? 0); injection Hpost as <-; auto.
  - unfold Close in Hpost; rewrite Hc in Hpost. injection Hpost as <-; auto.
  - injection Hpost as <-; auto.
  - injection Hpost as <-; auto.
Qed.

(** Closing is permanent, and a closed queue never gains an item: whatever
    calls return afterwards, the queue stays closed and what it holds is a
    suffix of what it held when closed. *)
Theorem closed_queue_only_drains (q : Queue) (os : list op) (q' : Queue) :
  reachable zero q -> closed q = true -> run_ops zero q os = Some q' ->
  closed q' = true /\ exists k, contents zero q' = skipn k (contents zero q).
Proof.
  intros Hr. pose proof (reachable_inv q Hr) as Hinv. clear Hr.
  revert q Hinv; induction os as [|o os IH]; intros q Hinv Hc E;
    cbn [run_ops] in E.
  - injection E as <-. split; [exact Hc|]. exists O; reflexivity.
  - destruct (post zero q o) as [q1|] eqn:Ep; [|discriminate].
    destruct (post_closed q o q1 Hinv Hc Ep) as (Hi1 & Hc1 & Hstep).
    destruct (IH q1 Hi1 Hc1 E) as (Hc' & k & Hk).
    split; [exact Hc'|].
    destruct Hstep as [Hs|(x & Hs)].
    + exists k; rewrite Hk, Hs; reflexivity.
    + exists (S k); rewrite Hk, Hs; reflexivity.
Qed.

(** [Resize] (lines 314-352) on a reachable open queue succeeds for every
    positive capacity, also one below the number of stored items; its only
    errors are [ErrCapacityNotPositive] and [ErrQueueClosed], and an error
    leaves the queue unchanged. *)
Theorem resize_errors (q : Queue) (n : Z) :
  reachable zero q ->
  (closed q = false -> 0 < n -> exists q', Resize zero q n = Ret q' None) /\
  (forall q' e, Resize zero q n = Ret q' (Some e) ->
     q' = q /\ n <> cap q /\
     ((e = ErrCapacityNotPositive /\ n <= 0) \/
      (e = ErrQueueClosed /\ 0 < n /\ closed q = true))).
Proof.
  intros Hr. pose proof (reachable_inv q Hr) as Hinv. split.
  - intros Hc Hn. destruct (Z.eq_dec n (cap q)) as [->|Hne].
    + exists q. unfold Resize. now rewrite Z.eqb_refl.
    + destruct (Resize_ok q n Hinv Hc Hne Hn) as (q' & E & _). eauto.
  - intros q' e E. destruct (Z.eqb_spec n (cap q)) as [->|Hne].
    { unfold Resize in E; rewrite Z.eqb_refl in E; discriminate. }
    destruct (Z.leb_spec n 0) as [Hle|Hgt].
    { unfold Resize in E.
      rewrite (proj2 (Z.eqb_neq _ _) Hne), (proj2 (Z.leb_le _ _) Hle) in E.
      injection E as <- <-. auto. }
    destruct (closed q) eqn:Hc.
    { unfold Resize in E.
      rewrite (proj2 (Z.eqb_neq _ _) Hne), (proj2 (Z.leb_gt _ _) Hgt), Hc in E.
      injection E as <- <-. auto 7. }
    destruct (Resize_ok q n Hinv Hc Hne Hgt) as (q1 & E1 & _).
    rewrite E1 in E; discriminate.
Qed.

(** [Close] (lines 355-366) releases every waiter: a blocked [Enqueue]
    returns [ErrQueueClosed] once the queue is closed, and a blocked
    [Dequeue] returns the zero value with [ErrQueueClosed]. *)
Theorem close_releases_waiters (q : Queue) (x : T) :
  (Enqueue q x = Blocks -> exists q', Close q = Ret q' None /\
     Enqueue q' x = Ret q' (Some ErrQueueClosed) /\
     contents zero q' = contents zero q) /\
  (Dequeue zero q = Blocks -> exists q', Close q = Ret q' None /\
     Dequeue zero q' = Ret q' (zero, Some ErrQueueClosed)).
Proof.
  split.
  - intros E. assert (Hc : closed q = false).
    { unfold Enqueue in E. destruct (closed q); [|reflexivity].
      rewrite andb_false_r in E; discriminate. }
    unfold Close; rewrite Hc. eexists; split; [reflexivity|]. split.
    + unfold Enqueue; cbn [closed]. now rewrite andb_false_r.
    + reflexivity.
  - intros E. unfold Dequeue in E.
    destruct (len q =? 0) eqn:Hl.
    + destruct (closed q) eqn:Hc; [discriminate|].
      unfold Close; rewrite Hc. eexists; split; [reflexivity|].
      unfold Dequeue; cbn [len closed]. now rewrite Hl.
    + exfalso. unfold dequeue_body in E.
      destruct (slice_get (items q) (head q)); [|discriminate].
      destruct (slice_set (items q) (head q) zero) as [its|]; [|discriminate].
      destruct (go_rem (head q + 1) (slen its)); discriminate.
Qed.

(** What wakes a waiter on a reachable queue.  A blocked [Enqueue] is
    released by a dequeue only when the queue held exactly [cap] items (a
    queue shrunk below its occupancy needs more), and by a resize above the
    occupancy; a blocked [Dequeue] receives the item of the next enqueue. *)
Theorem waiters_resume (q : Queue) (x y : T) :
  reachable zero q ->
  (Enqueue q x = Blocks -> forall q1 z, TryDequeue zero q = Ret q1 (z, None) ->
     (cap q < len q -> Enqueue q1 x = Blocks) /\
     (len q <= cap q -> exists q2, Enqueue q1 x = Ret q2 None)) /\
  (Enqueue q x = Blocks -> forall n q1, len q < n ->
     Resize zero q n = Ret q1 None -> exists q2, Enqueue q1 x = Ret q2 None) /\
  (Dequeue zero q = Blocks -> forall q1, TryEnqueue q y = Ret q1 None ->
     exists q2, Dequeue zero q1 = Ret q2 (y, None)).
Proof.
  intros Hr. pose proof (reachable_inv q Hr) as Hinv.
  pose proof Hinv as Hinv'; inv_destruct Hinv'.
  assert (HB : Enqueue q x = Blocks -> closed q = false /\ cap q <= len q).
  { unfold Enqueue. intros E.
    destruct (Z.leb_spec (cap q) (len q)), (closed q); cbn in E;
      try discriminate; auto.
    exfalso. unfold enqueue_body in E.
    destruct (slice_set (items q) (tail q) x) as [its|]; [|discriminate].
    destruct (go_rem (tail q + 1) (slen its)); discriminate. }
  split; [|split].
  - intros E q1 z Ed. destruct (HB E) as [Hop Hle].
    destruct (dequeue_body_ok q Hinv ltac:(lia))
      as (q2 & y2 & E2 & Hi2 & _ & Hl2 & Hcap2 & Hcl2).
    rewrite TryDequeue_nonempty in Ed by lia. rewrite E2 in Ed.
    injection Ed as <- _. split.
    + intros Hlt. unfold Enqueue. rewrite Hcl2, Hop, Hl2, Hcap2.
      now replace (cap q <=? len q - 1) with true by (symmetry; apply Z.leb_le; lia).
    + intros Hle'. destruct (enqueue_body_ok q2 x Hi2 ltac:(lia))
        as (q3 & E3 & _).
      exists q3. rewrite Enqueue_open by first [congruence | lia]. exact E3.
  - intros E n q1 Hn Er. destruct (HB E) as [Hop Hle].
    destruct (Resize_ok q n Hinv Hop ltac:(lia) ltac:(lia))
      as (q2 & E2 & Hi2 & _ & Hl2 & Hcap2 & Hcl2 & _).
    rewrite E2 in Er; injection Er as <-.
    destruct (enqueue_body_ok q2 x Hi2 ltac:(lia)) as (q3 & E3 & _).
    exists q3. rewrite Enqueue_open by first [congruence | lia]. exact E3.
  - intros E q1 Ee.
    assert (Hl0 : len q = 0 /\ closed q = false).
    { unfold Dequeue in E. destruct (Z.eqb_spec (len q) 0).
      - destruct (closed q); [discriminate|]. auto.
      - exfalso. unfold dequeue_body in E.
        destruct (slice_get (items q) (head q)); [|discriminate].
        destruct (slice_set (items q) (head q) zero) as [its|]; [|discriminate].
        destruct (go_rem (head q + 1) (slen its)); discriminate. }
    destruct Hl0 as [Hl0 Hop].
    destruct (enqueue_body_ok q y Hinv ltac:(lia))
      as (q2 & E2 & Hi2 & Hc2 & Hl2 & _).
    rewrite TryEnqueue_open in Ee by first [exact Hop | lia]. rewrite E2 in Ee; injection Ee as <-.
    destruct (dequeue_body_ok q2 Hi2 ltac:(lia))
      as (q3 & z & E3 & _ & Hc3 & _).
    exists q3. rewrite Dequeue_nonempty by lia. rewrite E3.
    assert (Hq0 : contents zero q = []).
    { apply length_zero_iff_nil. rewrite length_contents, Hl0. reflexivity. }
    rewrite Hc2, Hq0 in Hc3. cbn [app] in Hc3. injection Hc3 as ->. reflexivity.
Qed.

(** Every slot of the backing array outside the stored range holds the
    zero value in every reachable state: [TryDequeue]/[Dequeue] clear the
    slot they read (lines 283 and 305), [New] and [Resize] start from a
    zero-filled slice, and [Enqueue] only writes inside the new range. *)
Theorem free_slots_cleared (q : Queue) :
  reachable zero q -> free_slots_zero zero q.
Proof.
  induction 1 as [c q Hnew | q o q' Hr IH Hpost].
  - unfold New in Hnew. destruct (Z.leb_spec c 0); [discriminate|].
    rewrite go_make_ok in Hnew by lia. injection Hnew as <-.
    intros i _ _; cbn [items]. apply nth_repeat.
  - exact (post_free_zero q o q' (reachable_inv q Hr) IH Hpost).
Qed.

(** ** The first version (src/queue.go, lines 1-166) *)


(** On a ring state the first version's calls are the ring-buffer
    operations: [Enqueue] and [BlockingEnqueue] (lines 55-72, 97-112) append
    when [len < cap], [Dequeue] and [BlockingDequeue] (lines 75-94, 115-134)
    return the front item when [len > 0], and the ring layout is kept. *)
Theorem v1_enqueue_dequeue_fifo (q : V1.Queue) (x : T) :
  ring_state q ->
  (V1.len q < V1.cap q -> exists q', V1.Enqueue q x = V1.Ret q' None /\
     V1.BlockingEnqueue q x = V1.Ret q' tt /\ ring_state q' /\
     contents zero (as_later q') = contents zero (as_later q) ++ [x] /\
     V1.Len q' = V1.Len q + 1 /\ V1.Cap q' = V1.Cap q) /\
  (0 < V1.len q -> exists q' y, V1.Dequeue zero q = V1.Ret q' (y, None) /\
     V1.BlockingDequeue zero q = V1.Ret q' y /\ ring_state q' /\
     contents zero (as_later q) = y :: contents zero (as_later q') /\
     V1.Len q' = V1.Len q - 1 /\ V1.Cap q' = V1.Cap q).
Proof.
  intros Hr. pose proof Hr as [Hinv Hcap]. split.
  - intros Hlt.
    destruct (v1_enqueue_bridge q x Hr) as (q' & E & E' & Hc').
    destruct (enqueue_body_ok (as_later q) x Hinv ltac:(cbn; lia))
      as (q1 & E1 & Hi1 & Hct1 & Hl1 & _).
    rewrite E' in E1; injection E1 as <-.
    exists q'. unfold V1.Enqueue, V1.BlockingEnqueue.
    replace (V1.len q =? V1.cap q) with false by (symmetry; apply Z.eqb_neq; lia).
    rewrite E. split; [reflexivity|]. split; [reflexivity|].
    split; [split; [exact Hi1|]|].
    + unfold V1.enqueue_body in E.
      destruct (slice_set (V1.items q) (V1.tail q) x) as [its|] eqn:Es;
        [|discriminate].
      destruct (go_rem (V1.tail q + 1) (V1.cap q)); [|discriminate].
      injection E as <-. cbn [V1.cap V1.items]. rewrite Hcap.
      unfold slice_set in Es.
      destruct ((0 <=? V1.tail q) && (V1.tail q <? slen (V1.items q)));
        [|discriminate].
      injection Es as <-. symmetry; apply slen_set_nth.
    + split; [exact Hct1|]. unfold V1.Len, V1.Cap. split; [|exact Hc'].
      exact Hl1.
  - intros Hpos.
    destruct (v1_dequeue_bridge q Hr) as (q' & y & E & E' & Hc').
    destruct (dequeue_body_ok (as_later q) Hinv ltac:(cbn; lia))
      as (q1 & y1 & E1 & Hi1 & Hct1 & Hl1 & _).
    rewrite E' in E1; injection E1 as <- <-.
    exists q', y. unfold V1.Dequeue, V1.BlockingDequeue.
    replace (V1.len q =? 0) with false by (symmetry; apply Z.eqb_neq; lia).
    rewrite E. split; [reflexivity|]. split; [reflexivity|].
    split; [split; [exact Hi1|]|].
    + unfold V1.dequeue_body in E.
      destruct (slice_get (V1.items q) (V1.head q)); [|discriminate].
      destruct (slice_set (V1.items q) (V1.head q) zero) as [its|] eqn:Es;
        [|discriminate].
      destruct (go_rem (V1.head q + 1) (V1.cap q)); [|discriminate].
      injection E as <- _. cbn [V1.cap V1.items]. rewrite Hcap.
      unfold slice_set in Es.
      destruct ((0 <=? V1.head q) && (V1.head q <? slen (V1.items q)));
        [|discriminate].
      injection Es as <-. symmetry; apply slen_set_nth.
    + split; [exact Hct1|]. unfold V1.Len, V1.Cap. split; [|exact Hc'].
      exact Hl1.
Qed.


(** The defect of the first [Resize]: resizing a non-empty ring to exactly
    its occupancy returns nil but leaves [q.tail = len(q.items)]; a
    [Dequeue] still returns the front item, and the next [Enqueue] or
    [BlockingEnqueue] then writes [q.items[q.tail]] out of range and
    panics. *)
Theorem v1_resize_to_len_then_enqueue_panics (q : V1.Queue) (x : T) :
  ring_state q -> 0 < V1.len q -> V1.len q <> V1.cap q ->
  exists q1 q2 y,
    V1.Resize zero q (V1.len q) = V1.Ret q1 None /\
    V1.tail q1 = slen (V1.items q1) /\
    V1.Dequeue zero q1 = V1.Ret q2 (y, None) /\
    hd_error (contents zero (as_later q)) = Some y /\
    V1.Enqueue q2 x = V1.Panics /\ V1.BlockingEnqueue q2 x = V1.Panics.
Proof.
  intros Hr Hpos Hne.
  rewrite (v1_Resize_eq q (V1.len q) Hr ltac:(lia) ltac:(lia)).
  rewrite Nat.sub_diag. cbn [repeat]. rewrite app_nil_r.
  assert (HC : length (contents zero (as_later q)) = Z.to_nat (V1.len q))
    by (rewrite length_contents; reflexivity).
  destruct (contents zero (as_later q)) as [|y C] eqn:EC.
  { cbn [length] in HC. lia. }
  set (L := y :: C) in *.
  assert (HL : slen L = V1.len q) by (unfold slen; rewrite HC; lia).
  do 3 eexists. split; [reflexivity|].
  split; [cbn [V1.tail V1.items]; symmetry; exact HL|].
  split.
  { unfold V1.Dequeue, V1.dequeue_body; cbn [V1.len V1.items V1.head V1.cap].
    replace (V1.len q =? 0) with false by (symmetry; apply Z.eqb_neq; lia).
    rewrite slice_get_ok by lia. rewrite slice_set_ok by lia.
    rewrite go_rem_ok by lia. reflexivity. }
  split; [reflexivity|].
  assert (Hoob : slice_set (set_nth L (Z.to_nat 0) zero) (V1.len q) x = None).
  { unfold slice_set. rewrite slen_set_nth, HL.
    now rewrite Z.ltb_irrefl, andb_false_r. }
  unfold V1.Enqueue, V1.BlockingEnqueue, V1.enqueue_body;
    cbn [V1.len V1.cap V1.items V1.tail].
  replace (V1.len q - 1 =? V1.len q) with false by (symmetry; apply Z.eqb_neq; lia).
  rewrite Hoob. split; reflexivity.
Qed.

End Proofs.

(** A fresh queue of capacity 3 filled to capacity (its tail wraps to 0),
    then drained with both dequeue calls. *)
Lemma fifo_order_witness :
  exists q1 q2,
    enqueue_seq (mkQueue [0%nat; 0%nat; 0%nat] 0 0 0 3 false)
      [(false, 1%nat); (true, 2%nat); (false, 3%nat)] = Some q1 /\
    dequeue_seq 0%nat q1 [true; false; true] =
      Some (q2, map snd [(false, 1%nat); (true, 2%nat); (false, 3%nat)]) /\
    Len q2 = 0.
Proof.
  apply (fifo_order 0%nat 3); [reflexivity | cbn; lia | reflexivity].
Defined.

(** A wrapped queue ([head = tail = 1], items 2, 3, 4) reached from [New(3)],
    resized to 4. *)
Lemma resize_preserves_order_witness :
  contents 0%nat (mkQueue [2%nat; 3%nat; 4%nat; 0%nat] 0 3 3 4 false) =
    contents 0%nat (mkQueue [4%nat; 2%nat; 3%nat] 1 1 3 3 false) /\
  Len (mkQueue [2%nat; 3%nat; 4%nat; 0%nat] 0 3 3 4 false) =
    Len (mkQueue [4%nat; 2%nat; 3%nat] 1 1 3 3 false) /\
  Cap (mkQueue [2%nat; 3%nat; 4%nat; 0%nat] 0 3 3 4 false) = 4 /\
  (forall bs, length bs = Z.to_nat (Len (mkQueue [4%nat; 2%nat; 3%nat] 1 1 3 3 false)) ->
     exists q2, dequeue_seq 0%nat (mkQueue [2%nat; 3%nat; 4%nat; 0%nat] 0 3 3 4 false) bs =
       Some (q2, contents 0%nat (mkQueue [4%nat; 2%nat; 3%nat] 1 1 3 3 false))).
Proof.
  apply resize_preserves_order.
  - apply (New_reachable_run 0%nat 3 (mkQueue [0%nat; 0%nat; 0%nat] 0 0 0 3 false)
      [OpTryEnqueue 1%nat; OpTryEnqueue 2%nat; OpTryEnqueue 3%nat; OpTryDequeue;
       OpTryEnqueue 4%nat]); reflexivity.
  - reflexivity.
  - reflexivity.
Defined.

(** [New(1)] then [Close()]: [Resize(1)] returns [nil] and [Resize(0)]
    returns [ErrCapacityNotPositive], not [ErrQueueClosed]. *)
Lemma resize_closed_counterexample :
  reachable 0%nat (mkQueue [0%nat] 0 0 0 1 true) /\
  closed (mkQueue [0%nat] 0 0 0 1 true) = true /\
  Resize 0%nat (mkQueue [0%nat] 0 0 0 1 true) 1 =
    Ret (mkQueue [0%nat] 0 0 0 1 true) None /\
  Resize 0%nat (mkQueue [0%nat] 0 0 0 1 true) 0 =
    Ret (mkQueue [0%nat] 0 0 0 1 true) (Some ErrCapacityNotPositive).
Proof.
  split; [|split; [reflexivity | split; reflexivity]].
  apply (New_reachable_run 0%nat 1 (mkQueue [0%nat] 0 0 0 1 false) [OpClose]);
    reflexivity.
Defined.

Lemma resize_closed_witness :
  Resize 0%nat (mkQueue [0%nat] 0 0 0 1 true) 5 =
    Ret (mkQueue [0%nat] 0 0 0 1 true) (Some ErrQueueClosed).
Proof.
  exact (resize_closed 0%nat (mkQueue [0%nat] 0 0 0 1 true) 5 eq_refl).
Defined.

(** [New(3)], three enqueues, [Resize(1)]: [Len() = 3 > 1 = Cap()]. *)
Lemma len_le_cap_counterexample :
  reachable 0%nat (mkQueue [1%nat; 2%nat; 3%nat] 0 0 3 1 false) /\
  Cap (mkQueue [1%nat; 2%nat; 3%nat] 0 0 3 1 false) <
    Len (mkQueue [1%nat; 2%nat; 3%nat] 0 0 3 1 false).
Proof.
  split; [|reflexivity].
  apply (New_reachable_run 0%nat 3 (mkQueue [0%nat; 0%nat; 0%nat] 0 0 0 3 false)
    [OpTryEnqueue 1%nat; OpTryEnqueue 2%nat; OpTryEnqueue 3%nat; OpResize 1]);
    reflexivity.
Defined.

Lemma len_bounded_by_backing_witness :
  0 <= Len (mkQueue [1%nat; 2%nat; 3%nat] 0 0 3 1 false) <= 3 /\
  1 <= Cap (mkQueue [1%nat; 2%nat; 3%nat] 0 0 3 1 false) <= 3.
Proof.
  apply (len_bounded_by_backing 0%nat).
  apply (New_reachable_run 0%nat 3 (mkQueue [0%nat; 0%nat; 0%nat] 0 0 0 3 false)
    [OpTryEnqueue 1%nat; OpTryEnqueue 2%nat; OpTryEnqueue 3%nat; OpResize 1]);
    reflexivity.
Defined.

(** The same state after one [TryDequeue]: [head = 1] is not below
    [Cap() = 1]. *)
Lemma cursors_mod_cap_counterexample :
  reachable 0%nat (mkQueue [0%nat; 2%nat; 3%nat] 1 0 2 1 false) /\
  ~ (0 <= head (mkQueue [0%nat; 2%nat; 3%nat] 1 0 2 1 false) <
       Cap (mkQueue [0%nat; 2%nat; 3%nat] 1 0 2 1 false)).
Proof.
  split; [|cbn; lia].
  apply (New_reachable_run 0%nat 3 (mkQueue [0%nat; 0%nat; 0%nat] 0 0 0 3 false)
    [OpTryEnqueue 1%nat; OpTryEnqueue 2%nat; OpTryEnqueue 3%nat; OpResize 1;
     OpTryDequeue]); reflexivity.
Defined.

Lemma cursors_mod_backing_witness :
  0 <= head (mkQueue [0%nat; 2%nat; 3%nat] 1 0 2 1 false) < 3 /\
  0 <= tail (mkQueue [0%nat; 2%nat; 3%nat] 1 0 2 1 false) < 3 /\
  Cap (mkQueue [0%nat; 2%nat; 3%nat] 1 0 2 1 false) <= 3.
Proof.
  destruct (cursors_mod_backing 0%nat (mkQueue [0%nat; 2%nat; 3%nat] 1 0 2 1 false))
    as (H1 & H2 & H3 & _).
  - apply (New_reachable_run 0%nat 3 (mkQueue [0%nat; 0%nat; 0%nat] 0 0 0 3 false)
      [OpTryEnqueue 1%nat; OpTryEnqueue 2%nat; OpTryEnqueue 3%nat; OpResize 1;
       OpTryDequeue]); reflexivity.
  - auto.
Defined.

(** [New(3)], enqueue 7 and 8, [Close()], then drain. *)
Lemma close_then_drain_witness :
  exists q1 q2,
    Close (mkQueue [7%nat; 8%nat; 0%nat] 0 2 2 3 false) = Ret q1 None /\
    contents 0%nat q1 = contents 0%nat (mkQueue [7%nat; 8%nat; 0%nat] 0 2 2 3 false) /\
    Close q1 = Ret q1 (Some ErrQueueClosed) /\
    dequeue_seq 0%nat q1 [false; true] =
      Some (q2, contents 0%nat (mkQueue [7%nat; 8%nat; 0%nat] 0 2 2 3 false)) /\
    Len q2 = 0 /\
    TryDequeue 0%nat q2 = Ret q2 (0%nat, Some ErrQueueClosed) /\
    Dequeue 0%nat q2 = Ret q2 (0%nat, Some ErrQueueClosed).
Proof.
  apply close_then_drain; [|reflexivity|reflexivity].
  apply (New_reachable_run 0%nat 3 (mkQueue [0%nat; 0%nat; 0%nat] 0 0 0 3 false)
    [OpTryEnqueue 7%nat; OpEnqueue 8%nat]); reflexivity.
Defined.

(** [New(3)] filled with 1, 2, 3, then [Resize(1)]; along the drain the
    queue refuses enqueues until [len < 1]. *)
Lemma shrink_keeps_items_gates_enqueue_witness :
  contents 0%nat (mkQueue [1%nat; 2%nat; 3%nat] 0 0 3 1 false) =
    contents 0%nat (mkQueue [1%nat; 2%nat; 3%nat] 0 0 3 3 false) /\
  Len (mkQueue [1%nat; 2%nat; 3%nat] 0 0 3 1 false) =
    Len (mkQueue [1%nat; 2%nat; 3%nat] 0 0 3 3 false) /\
  Cap (mkQueue [1%nat; 2%nat; 3%nat] 0 0 3 1 false) = 1 /\
  (forall bs r xs,
     dequeue_seq 0%nat (mkQueue [1%nat; 2%nat; 3%nat] 0 0 3 1 false) bs =
       Some (r, xs) ->
     xs = firstn (length bs)
            (contents 0%nat (mkQueue [1%nat; 2%nat; 3%nat] 0 0 3 3 false)) /\
     Len r = Len (mkQueue [1%nat; 2%nat; 3%nat] 0 0 3 3 false) -
             Z.of_nat (length bs) /\
     Cap r = 1 /\
     (1 <= Len r -> forall x,
        TryEnqueue r x = Ret r (Some ErrQueueFull) /\ Enqueue r x = Blocks) /\
     (Len r < 1 -> forall x, exists r', TryEnqueue r x = Ret r' None)).
Proof.
  apply shrink_keeps_items_gates_enqueue.
  - apply (New_reachable_run 0%nat 3 (mkQueue [0%nat; 0%nat; 0%nat] 0 0 0 3 false)
      [OpTryEnqueue 1%nat; OpTryEnqueue 2%nat; OpTryEnqueue 3%nat]);
      reflexivity.
  - reflexivity.
  - reflexivity.
  - reflexivity.
Defined.

Lemma try_enqueue_failures_witness :
  TryEnqueue (mkQueue [1%nat; 2%nat; 3%nat] 0 0 3 3 false) 4%nat =
    Ret (mkQueue [1%nat; 2%nat; 3%nat] 0 0 3 3 false) (Some ErrQueueFull) /\
  TryEnqueue (mkQueue [0%nat] 0 0 0 1 true) 4%nat =
    Ret (mkQueue [0%nat] 0 0 0 1 true) (Some ErrQueueClosed).
Proof.
  split.
  - apply (proj2 (proj2 (try_enqueue_failures
             (mkQueue [1%nat; 2%nat; 3%nat] 0 0 3 3 false) 4%nat)));
      reflexivity.
  - apply (proj1 (proj2 (try_enqueue_failures
             (mkQueue [0%nat] 0 0 0 1 true) 4%nat)));
      reflexivity.
Defined.

Lemma try_dequeue_empty_witness :
  TryDequeue 0%nat (mkQueue [0%nat; 0%nat] 1 1 0 2 false) =
    Ret (mkQueue [0%nat; 0%nat] 1 1 0 2 false) (0%nat, Some ErrQueueEmpty) /\
  TryDequeue 0%nat (mkQueue [0%nat; 0%nat] 1 1 0 2 true) =
    Ret (mkQueue [0%nat; 0%nat] 1 1 0 2 true) (0%nat, Some ErrQueueClosed).
Proof.
  split.
  - apply (proj2 (proj2 (try_dequeue_empty 0%nat
             (mkQueue [0%nat; 0%nat] 1 1 0 2 false)))); reflexivity.
  - apply (proj1 (proj2 (try_dequeue_empty 0%nat
             (mkQueue [0%nat; 0%nat] 1 1 0 2 true)))); reflexivity.
Defined.

(** The wrapped state [head = tail = 1] reached from [New(3)]. *)
Lemma backing_array_invariant_witness :
  1 <= slen (items (mkQueue [4%nat; 2%nat; 3%nat] 1 1 3 3 false)) /\
  tail (mkQueue [4%nat; 2%nat; 3%nat] 1 1 3 3 false) =
    (head (mkQueue [4%nat; 2%nat; 3%nat] 1 1 3 3 false) +
     Len (mkQueue [4%nat; 2%nat; 3%nat] 1 1 3 3 false)) mod 3 /\
  TryDequeue 0%nat (mkQueue [4%nat; 2%nat; 3%nat] 1 1 3 3 false) <> Panics.
Proof.
  destruct (backing_array_invariant 0%nat (mkQueue [4%nat; 2%nat; 3%nat] 1 1 3 3 false))
    as (H1 & _ & _ & _ & H5 & _ & H7 & _).
  - apply (New_reachable_run 0%nat 3 (mkQueue [0%nat; 0%nat; 0%nat] 0 0 0 3 false)
      [OpTryEnqueue 1%nat; OpTryEnqueue 2%nat; OpTryEnqueue 3%nat; OpTryDequeue;
       OpTryEnqueue 4%nat]); reflexivity.
  - split; [exact H1|]. split; [exact H5|exact H7].
Defined.

Lemma try_enqueue_appends_witness :
  exists q', TryEnqueue (mkQueue [1%nat; 0%nat; 0%nat] 0 1 1 3 false) 2%nat = Ret q' None.
Proof.
  apply (proj2 (try_enqueue_appends 0%nat (mkQueue [1%nat; 0%nat; 0%nat] 0 1 1 3 false) 2%nat
    ltac:(apply (New_reachable_run 0%nat 3 (mkQueue [0%nat; 0%nat; 0%nat] 0 0 0 3 false)
            [OpTryEnqueue 1%nat]); reflexivity))); [reflexivity | cbn; lia].
Defined.

Lemma try_dequeue_pops_front_witness :
  exists q' x, TryDequeue 0%nat (mkQueue [1%nat; 0%nat; 0%nat] 0 1 1 3 false) = Ret q' (x, None).
Proof.
  apply (proj2 (try_dequeue_pops_front 0%nat (mkQueue [1%nat; 0%nat; 0%nat] 0 1 1 3 false)
    ltac:(apply (New_reachable_run 0%nat 3 (mkQueue [0%nat; 0%nat; 0%nat] 0 0 0 3 false)
            [OpTryEnqueue 1%nat]); reflexivity))); cbn; lia.
Defined.

Lemma closed_queue_only_drains_witness :
  closed (mkQueue [0%nat; 8%nat; 0%nat] 1 2 1 3 true) = true /\
  exists k, contents 0%nat (mkQueue [0%nat; 8%nat; 0%nat] 1 2 1 3 true) =
            skipn k (contents 0%nat (mkQueue [7%nat; 8%nat; 0%nat] 0 2 2 3 true)).
Proof.
  apply (closed_queue_only_drains 0%nat (mkQueue [7%nat; 8%nat; 0%nat] 0 2 2 3 true)
           [OpTryEnqueue 9%nat; OpDequeue; OpResize 5]).
  - apply (New_reachable_run 0%nat 3 (mkQueue [0%nat; 0%nat; 0%nat] 0 0 0 3 false)
      [OpTryEnqueue 7%nat; OpEnqueue 8%nat; OpClose]); reflexivity.
  - reflexivity.
  - reflexivity.
Defined.

Lemma resize_errors_witness :
  exists q', Resize 0%nat (mkQueue [7%nat; 8%nat; 0%nat] 0 2 2 3 false) 1 = Ret q' None.
Proof.
  apply (proj1 (resize_errors 0%nat (mkQueue [7%nat; 8%nat; 0%nat] 0 2 2 3 false) 1
    ltac:(apply (New_reachable_run 0%nat 3 (mkQueue [0%nat; 0%nat; 0%nat] 0 0 0 3 false)
            [OpTryEnqueue 7%nat; OpTryEnqueue 8%nat]); reflexivity)));
    [reflexivity | cbn; lia].
Defined.

Lemma waiters_resume_witness :
  exists q2, Enqueue (mkQueue [0%nat; 8%nat; 9%nat] 1 0 2 3 false) 4%nat = Ret q2 None.
Proof.
  destruct (waiters_resume 0%nat (mkQueue [7%nat; 8%nat; 9%nat] 0 0 3 3 false) 4%nat 4%nat)
    as (H1 & _ & _).
  - apply (New_reachable_run 0%nat 3 (mkQueue [0%nat; 0%nat; 0%nat] 0 0 0 3 false)
      [OpTryEnqueue 7%nat; OpTryEnqueue 8%nat; OpTryEnqueue 9%nat]); reflexivity.
  - apply (proj2 (H1 eq_refl (mkQueue [0%nat; 8%nat; 9%nat] 1 0 2 3 false) 7%nat eq_refl)).
    cbn; lia.
Defined.

Lemma free_slots_cleared_witness :
  free_slots_zero 0%nat (mkQueue [0%nat; 8%nat; 9%nat] 1 0 2 3 false).
Proof.
  apply free_slots_cleared.
  apply (New_reachable_run 0%nat 3 (mkQueue [0%nat; 0%nat; 0%nat] 0 0 0 3 false)
    [OpTryEnqueue 7%nat; OpTryEnqueue 8%nat; OpTryEnqueue 9%nat; OpDequeue]);
    reflexivity.
Defined.

Lemma v1_enqueue_dequeue_fifo_witness :
  exists q', V1.Enqueue (V1.mkQueueV1 [1%nat; 0%nat; 0%nat] 0 1 1 3) 2%nat = V1.Ret q' None /\
    contents 0%nat (as_later q') = [1%nat; 2%nat].
Proof.
  destruct (v1_enqueue_dequeue_fifo 0%nat (V1.mkQueueV1 [1%nat; 0%nat; 0%nat] 0 1 1 3) 2%nat)
    as [H1 _].
  - split; [unfold inv, as_later; cbn; lia | reflexivity].
  - destruct (H1 ltac:(cbn; lia)) as (q' & E & _ & _ & Hc & _).
    exists q'. split; [exact E|]. rewrite Hc. reflexivity.
Defined.


Lemma v1_resize_to_len_then_enqueue_panics_witness :
  exists q1 q2 y,
    V1.Resize 0%nat (V1.mkQueueV1 [1%nat; 0%nat; 0%nat] 0 1 1 3) 1 = V1.Ret q1 None /\
    V1.tail q1 = slen (V1.items q1) /\
    V1.Dequeue 0%nat q1 = V1.Ret q2 (y, None) /\
    hd_error (contents 0%nat (as_later (V1.mkQueueV1 [1%nat; 0%nat; 0%nat] 0 1 1 3))) = Some y /\
    V1.Enqueue q2 2%nat = V1.Panics /\ V1.BlockingEnqueue q2 2%nat = V1.Panics.
Proof.
  apply (v1_resize_to_len_then_enqueue_panics 0%nat
           (V1.mkQueueV1 [1%nat; 0%nat; 0%nat] 0 1 1 3) 2%nat).
  - split; [unfold inv, as_later; cbn; lia | reflexivity].
  - cbn; lia.
  - cbn; lia.
Defined.
